(** * Channel kinetics of the granule-cell examples and the Traub cell loaders

    A shallow embedding of the rate-table construction in
    [ephys/granule_cell_hhchannel.py], the rate expressions of
    [ephys/granule_cell_hhchannel2.py] and [ephys/granule_cell.py], and the
    prototype loader of [traub_2005/mus/cells.py].

    Numbers: a float64 value is modelled as [option R].  [Some r] is a finite
    value, read as the exact real number [r]; [None] stands for a value that
    is not finite (NaN or an infinity).  Addition, subtraction,
    multiplication, [exp] and [max] of finite values are the exact real
    operations; every division of the source goes through [fdiv], which
    yields [None] on a zero divisor.  Rounding is outside the model, and so
    is overflow, except where a definition writes it out. *)

From Stdlib Require Import Reals Lra Lia ZArith.
From stdpp Require Import base option list gmap strings.

#[local] Open Scope R_scope.

(** ** Checked float arithmetic and numpy arrays *)

#[global] Instance R_eq_dec : EqDecision R := Req_dec_T.
#[global] Instance Rlt_decision (a b : R) : Decision (a < b) := Rlt_dec a b.
#[global] Instance Rgt_decision (a b : R) : Decision (a > b) := Rgt_dec a b.

(** [a / b] on floats: a zero divisor gives a NaN or an infinity. *)
Definition fdiv (a b : R) : option R :=
  if decide (b = 0) then None else Some (a / b).

(** A binary operation applied to two float values; a non-finite operand
    gives a non-finite result. *)
Definition lift2 (f : R → R → option R) (oa ob : option R) : option R :=
  a ← oa; b ← ob; f a b.

(** A numpy array of float64. *)
Abbreviation ndarray := (list (option R)).

(** Elementwise [x + y], [x - y], [x / y] of two arrays, and the broadcast
    [c / y] of a scalar and an array. *)
Definition np_add (x y : ndarray) : ndarray :=
  zip_with (lift2 (λ a b, Some (a + b))) x y.
Definition np_sub (x y : ndarray) : ndarray :=
  zip_with (lift2 (λ a b, Some (a - b))) x y.
Definition np_div (x y : ndarray) : ndarray :=
  zip_with (lift2 fdiv) x y.
Definition np_rdiv (c : R) (y : ndarray) : ndarray :=
  (λ ob, b ← ob; fdiv c b) <$> y.

(** [np.linspace(start, stop, num)]: [num] samples, the step is
    [(stop - start) / (num - 1)]. *)
Definition linspace (start stop : R) (num : nat) : list R :=
  (λ i : nat, start + INR i * ((stop - start) / INR (num - 1))) <$> seq 0 num.

(** The lookup table of one gate ([moose.HHGate]); the fields [min] and
    [max] of the source are [gate_min] and [gate_max] here. *)
Record HHGate := mkHHGate {
  tableA : ndarray;
  tableB : ndarray;
  gate_min : R;
  gate_max : R;
  divs : nat;
  useInterpolation : bool
}.

(** A channel with an activation gate X and an inactivation gate Y. *)
Record HHChannel := mkHHChannel {
  Xpower : Z;
  Ypower : Z;
  Ek : R;
  gateX : HHGate;
  gateY : HHGate
}.

(** ** ephys/granule_cell_hhchannel.py *)

Module HH.

Definition vmin : R := -150e-3.
Definition vmax : R := 100e-3.
Definition vdivs : nat := 640.
Definition v : list R := linspace vmin vmax (vdivs + 1).

Definition temp_exp : R := 17.350264793.
Definition temp : R := 32.0.
Definition Q10 : R := 3.
Definition q10_mul : R := Rpower Q10 (0.1 * (temp - temp_exp)).

Definition v_offset : R := 10e-3.
Definition V : list R := (λ x, x - v_offset) <$> v.

(** The entry of [V] at grid index [i], in closed form (see [V_lookup]). *)
Definition V_at (i : nat) : R :=
  vmin + INR i * ((vmax - vmin) / 640) - v_offset.

(** *** plot_hhgate: the four columns written to the [.dat] files *)

Definition plot_alpha (g : HHGate) : ndarray := tableA g.
Definition plot_beta (g : HHGate) : ndarray := np_sub (tableB g) (tableA g).
Definition plot_tau (g : HHGate) : ndarray := np_rdiv 1 (tableB g).
Definition plot_inf (g : HHGate) : ndarray := np_div (tableA g) (tableB g).
Definition plot_v (g : HHGate) : list R :=
  linspace (gate_min g) (gate_max g) (divs g + 1).

(** The gate makers below take the temperature factor as an argument [q];
    the source uses the module constant [q10_mul] (see [make_channel_CaHVA]
    and its siblings at the end of each block).  A name ending in [_at] is
    the value of the array expression at one sample [Vx] of [V]; the array
    itself carries the name of the Python variable. *)

(** *** make_channel_CaHVA *)

Definition CaHVA_alpha_m_at (q Vx : R) : option R :=
  d ← fdiv 1600 (1 + exp (-72 * (Vx - 5e-3)));
  Some (d * q).

Definition CaHVA_x_at (Vx : R) : option R :=
  fdiv (Vx - (-8.9e-3)) (-0.005).

Definition CaHVA_beta_m_at (q Vx : R) : option R :=
  x ← CaHVA_x_at Vx;
  d ← fdiv (100 * x) (1 - exp (- x));
  Some (d * q).

(** [alpha_h = 5 * exp(...) * q10_mul] followed by the masked assignment
    [alpha_h[V < -0.060] = 5.0 * q10_mul]. *)
Definition CaHVA_alpha_h_at (q Vx : R) : option R :=
  if decide (Vx < -0.060) then Some (5.0 * q)
  else Some (5 * exp (-50 * (Vx - (-0.06))) * q).

Definition CaHVA_beta_h_at (q Vx : R) : option R :=
  if decide (Vx < -0.060) then Some 0.0
  else Some ((5 - 5 * exp (-50 * (Vx - (-0.060)))) * q).

Definition CaHVA_alpha_m (q : R) : ndarray := CaHVA_alpha_m_at q <$> V.
Definition CaHVA_beta_m (q : R) : ndarray := CaHVA_beta_m_at q <$> V.
Definition CaHVA_alpha_h (q : R) : ndarray := CaHVA_alpha_h_at q <$> V.
Definition CaHVA_beta_h (q : R) : ndarray := CaHVA_beta_h_at q <$> V.

Definition make_channel_CaHVA_q (q : R) : HHChannel :=
  {| Xpower := 2; Ypower := 1; Ek := 80e-3;
     gateX := mkHHGate (CaHVA_alpha_m q)
                (np_add (CaHVA_alpha_m q) (CaHVA_beta_m q))
                vmin vmax vdivs true;
     gateY := mkHHGate (CaHVA_alpha_h q)
                (np_add (CaHVA_alpha_h q) (CaHVA_beta_h q))
                vmin vmax vdivs true |}.

Definition make_channel_CaHVA : HHChannel := make_channel_CaHVA_q q10_mul.

(** *** make_channel_KDR *)

Definition KDR_alpha_m_at (q Vx : R) : option R :=
  Some (q * 170 * exp (73 * (Vx - (-38e-3)))).

Definition KDR_beta_m_at (q Vx : R) : option R :=
  Some (q * 170 * exp (-18 * (Vx - (-38e-3)))).

(** [np.where(V > -0.046, 0.76, 0.7 + 0.065 * exp(...))], then
    [alpha_h *= q10_mul]. *)
Definition KDR_alpha_h_at (q Vx : R) : option R :=
  a ← (if decide (Vx > -0.046) then Some 0.76
       else Some (0.7 + 0.065 * exp (-80 * (Vx - (-46e-3)))));
  Some (a * q).

(** [1.1 / (1 + exp(...))], then [beta_h *= q10_mul]. *)
Definition KDR_beta_h_at (q Vx : R) : option R :=
  b ← fdiv 1.1 (1 + exp (-80.7 * (Vx - (-0.044))));
  Some (b * q).

Definition KDR_alpha_m (q : R) : ndarray := KDR_alpha_m_at q <$> V.
Definition KDR_beta_m (q : R) : ndarray := KDR_beta_m_at q <$> V.
Definition KDR_alpha_h (q : R) : ndarray := KDR_alpha_h_at q <$> V.
Definition KDR_beta_h (q : R) : ndarray := KDR_beta_h_at q <$> V.

Definition make_channel_KDR_q (q : R) : HHChannel :=
  {| Xpower := 4; Ypower := 1; Ek := -90e-3;
     gateX := mkHHGate (KDR_alpha_m q)
                (np_add (KDR_alpha_m q) (KDR_beta_m q))
                vmin vmax vdivs true;
     gateY := mkHHGate (KDR_alpha_h q)
                (np_add (KDR_alpha_h q) (KDR_beta_h q))
                vmin vmax vdivs true |}.

Definition make_channel_KDR : HHChannel := make_channel_KDR_q q10_mul.

(** *** make_channel_NaF *)

Definition NaF_alpha_m_at (Vx : R) : option R :=
  Some (1500 * exp (81 * (Vx - (-39e-3)))).
Definition NaF_beta_m_at (Vx : R) : option R :=
  Some (1500 * exp (-66 * (Vx - (-39e-3)))).
Definition NaF_alpha_h_at (Vx : R) : option R :=
  Some (120 * exp (-89 * (Vx - (-0.05)))).
Definition NaF_beta_h_at (Vx : R) : option R :=
  Some (120 * exp (89 * (Vx - (-0.05)))).

(** One sample of
    [np.where(alpha + beta == 0, 0, np.maximum(1 / (alpha + beta), floor)) / q]:
    both branches of [np.where] are computed, the test selects one, and the
    selected value is divided by [q]. *)
Definition NaF_tau_at (floor q a b : R) : option R :=
  t ← (if decide (a + b = 0) then Some 0
       else (r ← fdiv 1 (a + b); Some (Rmax r floor)));
  fdiv t q.

(** One sample of [alpha / (alpha + beta)]. *)
Definition NaF_inf_at (a b : R) : option R := fdiv a (a + b).

(** The arrays [tau] and [inf] of one gate, from its rate arrays. *)
Definition NaF_tau_arr (floor q : R) (alpha beta : ndarray) : ndarray :=
  zip_with (lift2 (NaF_tau_at floor q)) alpha beta.
Definition NaF_inf_arr (alpha beta : ndarray) : ndarray :=
  zip_with (lift2 NaF_inf_at) alpha beta.

Definition NaF_alpha_m : ndarray := NaF_alpha_m_at <$> V.
Definition NaF_beta_m : ndarray := NaF_beta_m_at <$> V.
Definition NaF_tau_m (q : R) : ndarray :=
  NaF_tau_arr 5e-5 q NaF_alpha_m NaF_beta_m.
Definition NaF_inf_m : ndarray := NaF_inf_arr NaF_alpha_m NaF_beta_m.

Definition NaF_alpha_h : ndarray := NaF_alpha_h_at <$> V.
Definition NaF_beta_h : ndarray := NaF_beta_h_at <$> V.
Definition NaF_inf_h : ndarray := NaF_inf_arr NaF_alpha_h NaF_beta_h.
Definition NaF_tau_h (q : R) : ndarray :=
  NaF_tau_arr 2.25e-4 q NaF_alpha_h NaF_beta_h.

Definition make_channel_NaF_q (q : R) : HHChannel :=
  {| Xpower := 3; Ypower := 1; Ek := 55e-3;
     gateX := mkHHGate (np_div NaF_inf_m (NaF_tau_m q))
                (np_rdiv 1 (NaF_tau_m q)) vmin vmax vdivs true;
     gateY := mkHHGate (np_div NaF_inf_h (NaF_tau_h q))
                (np_rdiv 1 (NaF_tau_h q)) vmin vmax vdivs true |}.

Definition make_channel_NaF : HHChannel := make_channel_NaF_q q10_mul.

(** *** Properties of a gate, as the specification words them *)

(** Every entry of a table of [n] samples is finite. *)
Definition finite_table (n : nat) (t : ndarray) : Prop :=
  length t = n ∧ Forall is_Some t.

Definition finite_gate (g : HHGate) : Prop :=
  finite_table (divs g + 1) (tableA g) ∧ finite_table (divs g + 1) (tableB g).

(** At index [i] the gate stores [A = alpha], [B = alpha + beta], and the
    export gives back [alpha], [beta], [tau = 1/(alpha+beta)] and
    [inf = alpha/(alpha+beta)]. *)
Definition alpha_beta_encoding (alpha beta : ndarray) (g : HHGate) (i : nat)
    : Prop :=
  ∃ a b, alpha !! i = Some (Some a) ∧ beta !! i = Some (Some b) ∧
    tableA g !! i = Some (Some a) ∧
    tableB g !! i = Some (Some (a + b)) ∧
    plot_alpha g !! i = Some (Some a) ∧
    plot_beta g !! i = Some (Some b) ∧
    plot_tau g !! i = Some (Some (1 / (a + b))) ∧
    plot_inf g !! i = Some (Some (a / (a + b))).

(** At index [i] the gate stores [A = inf/tau], [B = 1/tau], and the export
    gives back [tau] and [inf]; its [beta] column is [B - A]. *)
Definition tau_inf_encoding (tau inf : ndarray) (g : HHGate) (i : nat)
    : Prop :=
  ∃ t x, tau !! i = Some (Some t) ∧ inf !! i = Some (Some x) ∧
    tableA g !! i = Some (Some (x / t)) ∧
    tableB g !! i = Some (Some (1 / t)) ∧
    plot_beta g !! i = Some (Some (1 / t - x / t)) ∧
    plot_tau g !! i = Some (Some t) ∧
    plot_inf g !! i = Some (Some x).

(** At index [i] the gate built with factor [f] has the steady state of the
    gate built without scaling, and its time constant divided by [f]. *)
Definition q10_invariant (unscaled scaled : HHGate) (f : R) (i : nat)
    : Prop :=
  ∃ x t, plot_inf unscaled !! i = Some (Some x) ∧
    plot_inf scaled !! i = Some (Some x) ∧
    plot_tau unscaled !! i = Some (Some t) ∧
    plot_tau scaled !! i = Some (Some (t / f)).

(** Both entries at index [i] are finite, [0 < A <= B], and the exported
    steady state and time constant are a probability and a positive time. *)
Definition rates_in_range (g : HHGate) (i : nat) : Prop :=
  ∃ A B x t,
    tableA g !! i = Some (Some A) ∧ tableB g !! i = Some (Some B) ∧
    0 < A <= B ∧
    plot_inf g !! i = Some (Some x) ∧ 0 < x <= 1 ∧
    plot_tau g !! i = Some (Some t) ∧ 0 < t.

End HH.

(** ** ephys/granule_cell_hhchannel2.py

    The gates of this file are given as expression strings, evaluated by the
    simulation engine at a voltage [v].  [~(x := e1, y := e2, body)] binds
    [x] and [y] and returns [body]; [c ? a : b] selects one branch. *)

Module HH2.

Definition TEMP_0 : R := 17.35.
Definition TEMP_1 : R := 32.0.
Definition Q10 : R := 3.0.
Definition Q10_MUL : R := Rpower Q10 (0.1 * (TEMP_1 - TEMP_0)).

Definition vmin : R := -150e-3.
Definition vmax : R := 100e-3.
Definition vdivs : nat := 1000.

(** *** make_channel_KA: [tau] is the Python string spliced into
    [tauExpr = '~(tau:={tau}, {Q10_MUL} * tau)']. *)

Definition KA_m_tau (v : R) : option R :=
  d ← fdiv (- ((v - 10e-3) - (-43.5e-3))) 0.0428;
  Some (0.41e-3 * exp d + 0.167e-3).

Definition KA_m_tauExpr (v : R) : option R :=
  tau ← KA_m_tau v; Some (Q10_MUL * tau).

Definition KA_m_infExpr (v : R) : option R :=
  d ← fdiv (- ((v - 10e-3) - (-46.7e-3))) 19.8;
  fdiv 1 (1 + exp d).

Definition KA_h_tau (v : R) : option R :=
  d ← fdiv 1 (57.9 * exp ((v - 10e-3) * 127)
              + 134e-6 * exp (-59 * (v - 10e-3)));
  Some (0.001 * (10.8 + 30 * (v - 10e-3) + d)).

Definition KA_h_tauExpr (v : R) : option R :=
  tau ← KA_h_tau v; Some (Q10_MUL * tau).

Definition KA_h_infExpr (v : R) : option R :=
  d ← fdiv (- ((v - 10e-3) - (-78.8e-3))) 0.0084;
  fdiv 1 (1 + exp d).

(** *** make_channel_NaF *)

Definition NaF_m_alpha (v : R) : R :=
  Q10_MUL * 1500 * exp (81 * ((v - 10e-3) - (-39e-3))).
Definition NaF_m_beta (v : R) : R :=
  Q10_MUL * 1500 * exp (-66 * ((v - 10e-3) - (-39e-3))).
Definition NaF_h_alpha (v : R) : R :=
  Q10_MUL * 120 * exp (-89 * ((v - 10e-3) - (-0.05))).
Definition NaF_h_beta (v : R) : R :=
  Q10_MUL * 120 * exp (89 * ((v - 10e-3) - (-0.05))).

(** [tau := alpha + beta == 0 ? 0 : 1/(alpha + beta), max(tau, floor)] *)
Definition NaF_tau_body (floor alpha beta : R) : option R :=
  tau ← (if decide (alpha + beta = 0) then Some 0 else fdiv 1 (alpha + beta));
  Some (Rmax tau floor).

(** [alpha/(alpha+beta)] *)
Definition NaF_inf_body (alpha beta : R) : option R :=
  fdiv alpha (alpha + beta).

Definition NaF_m_tauExpr (v : R) : option R :=
  NaF_tau_body 1e-5 (NaF_m_alpha v) (NaF_m_beta v).
Definition NaF_m_infExpr (v : R) : option R :=
  NaF_inf_body (NaF_m_alpha v) (NaF_m_beta v).
Definition NaF_h_tauExpr (v : R) : option R :=
  NaF_tau_body 0.045e-3 (NaF_h_alpha v) (NaF_h_beta v).
Definition NaF_h_infExpr (v : R) : option R :=
  NaF_inf_body (NaF_h_alpha v) (NaF_h_beta v).

(** *** make_channel_CaHVA *)

Definition CaHVA_m_alpha (v : R) : option R :=
  fdiv 1600 (1 + exp (-72 * ((v - 10e-3) - 5e-3))).
Definition CaHVA_m_alphaExpr (v : R) : option R :=
  alpha ← CaHVA_m_alpha v; Some (Q10_MUL * alpha).

(** The largest argument at which the float64 [exp] is finite; above it
    [exp] returns [+inf]. *)
Definition exp_overflow : R := 709.782712893384.

(** The exponent [200 * x / (-0.005)] of this expression leaves the range
    of the float64 [exp] at ordinary voltages (below about -16.6 mV), so the
    overflow is written out here: [exp] is then [+inf], the divisor
    [1 - inf] is [-inf], and the finite positive numerator divided by it is
    the zero [-0.0]. *)
Definition CaHVA_m_beta (v : R) : option R :=
  n ← fdiv (100 * ((v - 10e-3) - (-8.9e-3))) (-0.005);
  e ← fdiv (200 * ((v - 10e-3) - (-8.9e-3))) (-0.005);
  if decide (exp_overflow < e) then Some 0
  else fdiv n (1 - exp e).
Definition CaHVA_m_betaExpr (v : R) : option R :=
  beta ← CaHVA_m_beta v; Some (Q10_MUL * beta).

(** *** make_channel_KCa: the gate depends on the voltage [v] and on the
    calcium concentration [c].  For [c = 0] the inner quotient of [alpha] is
    an infinity; the value the engine gives to the whole expression there is
    not described by this model, and nothing is stated for it. *)

Definition KCa_alpha (v c : R) : option R :=
  r ← fdiv (1.5e-3 * exp (-85 * (v - 10e-3))) c;
  fdiv 2500 (1 + r).
Definition KCa_alphaExpr (v c : R) : option R :=
  alpha ← KCa_alpha v c; Some (Q10_MUL * alpha).

Definition KCa_beta (v c : R) : option R :=
  r ← fdiv c (1.5e-4 * exp (-77 * (v - 10e-3)));
  fdiv 1500 (1 + r).
Definition KCa_betaExpr (v c : R) : option R :=
  beta ← KCa_beta v c; Some (Q10_MUL * beta).

End HH2.

(** ** ephys/granule_cell.py: make_channel_KDr, the m-gate rate strings *)

Module GC.

Definition KDr_m_alpha (v : R) : option R :=
  Some (170 * exp (73 * ((v - 10e-3) - (-38e-3)))).

Definition KDr_m_beta (v : R) : option R :=
  Some (170 * exp (-18 * ((v - 10e-3) - (-38e-3)))).

(** *** make_channel_CaHVA *)

Definition CaHVA_m_alpha (v : R) : option R :=
  fdiv 1600 (1 + exp (-72 * ((v - 10e-3) - 5e-3))).

Definition CaHVA_m_beta (v : R) : option R :=
  x ← fdiv (100 * ((v - 10e-3) - (-8.9e-3))) (-0.005);
  fdiv x (1 - exp (200 * ((v - 10e-3) - (-8.9e-3)))).

Definition CaHVA_h_alpha (v : R) : option R :=
  if decide (v - 10e-3 < -0.060) then Some 5.0
  else Some (5 * exp (-50 * ((v - 10e-3) - (-0.06)))).

Definition CaHVA_h_beta (v : R) : option R :=
  if decide (v - 10e-3 < -0.060) then Some 0.0
  else Some (5 - 5 * exp (-50 * ((v - 10e-3) - (-0.060)))).

(** *** make_channel_KDr, the h-gate *)

Definition KDr_h_alpha (v : R) : option R :=
  if decide (v - 10e-3 > -0.046) then Some 0.76
  else Some (0.7 + 0.065 * exp (-80 * (v - 10e-3) - (-46e-3))).

Definition KDr_h_beta (v : R) : option R :=
  fdiv 1.1 (1 + exp (-80.7 * ((v - 10e-3) - (-0.044)))).

(** *** make_channel_NaF *)

Definition NaF_m_alpha (v : R) : R := 1500 * exp (81 * ((v - 10e-3) - (-39e-3))).
Definition NaF_m_beta (v : R) : R := 1500 * exp (-66 * ((v - 10e-3) - (-39e-3))).
Definition NaF_h_alpha (v : R) : R := 120 * exp (-89 * ((v - 10e-3) - (-0.05))).
Definition NaF_h_beta (v : R) : R := 120 * exp (89 * ((v - 10e-3) - (-0.05))).

(** [alpha + beta == 0 ? 0 : max(1/(alpha+beta), 5e-5)] *)
Definition NaF_m_tau (v : R) : option R :=
  let alpha := NaF_m_alpha v in
  let beta := NaF_m_beta v in
  if decide (alpha + beta = 0) then Some 0
  else (r ← fdiv 1 (alpha + beta); Some (Rmax r 5e-5)).

Definition NaF_m_inf (v : R) : option R :=
  let alpha := NaF_m_alpha v in
  let beta := NaF_m_beta v in
  fdiv alpha (alpha + beta).

(** [alpha + beta == 0 ? 0 : min(1/(alpha+beta), 2.25e-4)] *)
Definition NaF_h_tau (v : R) : option R :=
  let alpha := NaF_h_alpha v in
  let beta := NaF_h_beta v in
  if decide (alpha + beta = 0) then Some 0
  else (r ← fdiv 1 (alpha + beta); Some (Rmin r 2.25e-4)).

Definition NaF_h_inf (v : R) : option R :=
  let alpha := NaF_h_alpha v in
  let beta := NaF_h_beta v in
  fdiv alpha (alpha + beta).

End GC.

(** ** The rate table of a gate, read at one voltage *)

Module RateTable.

(** Modelled from the spec: how the simulation engine, which is not part of
    the repository, reads a gate at a voltage.  A gate given by rates has
    [A = alpha] and [B = alpha + beta]; its steady state is
    [xinf(v) = A(v)/B(v)] and its time constant is [tau(v) = 1/B(v)]. *)
Definition A_of (alpha beta : R) : R := alpha.
Definition B_of (alpha beta : R) : R := alpha + beta.
Definition xinf (A B : R) : option R := fdiv A B.
Definition tau (B : R) : option R := fdiv 1 B.

End RateTable.

(** ** The gate-state integrator *)

Module Integrator.

(** Modelled from the spec: the per-timestep gate update is done by the
    external simulation engine and is not part of the repository.  The spec
    gives [xinf = A(v) / B(v)],
    [x(t+dt) = xinf + (x(t) - xinf) * exp(-dt * B(v))], and for
    [B(v) == 0] the state is held constant for the step. *)
Definition gate_step (dt A B x : R) : R :=
  if decide (B = 0) then x
  else let xinf := A / B in xinf + (x - xinf) * exp (- dt * B).

(** [n] successive steps at a fixed voltage. *)
Fixpoint gate_run (n : nat) (dt A B x : R) : R :=
  match n with
  | O => x
  | S k => gate_step dt A B (gate_run k dt A B x)
  end.

End Integrator.

(** ** traub_2005/mus/cells.py *)

Module Cells.

#[local] Open Scope string_scope.

(** A value of a data-frame column. *)
Inductive scalar :=
  | SInt (z : Z)
  | SFloat (r : R).

(** [DataFrame.to_dict()]: column name to (row index to value). *)
Abbreviation column := (list (Z * scalar)).
Abbreviation frame := (list (string * column)).

(** A handle on an element of the simulator's object tree. *)
Record Elem := mkElem { path : string }.

Inductive exn :=
  | KeyError (key : string)
  | TypeError (msg : string)
  | FileNotFoundError (file : string)
  | MooseError (msg : string).

(** What the loader can do to the outside world. *)
Inductive event :=
  | EvInitChannels
  | EvLoadModel (file_path cell_path : string)
  | EvReadCsv (file : string).

Record World := mkWorld {
  fs : gmap string frame;                      (* data files, parsed *)
  objs : gmap string (gmap string scalar);     (* element path to fields *)
  trace : list event                           (* external actions so far *)
}.

Inductive result (A : Type) :=
  | Ok (a : A)
  | Raise (e : exn).
Arguments Ok {A} a.
Arguments Raise {A} e.

(** Statements: state passing with exceptions. *)
Definition M (A : Type) : Type := World → result A * World.

#[global] Instance M_ret : MRet M := λ A a w, (Ok a, w).
#[global] Instance M_bind : MBind M := λ A B f m w,
  match m w with
  | (Ok a, w') => f a w'
  | (Raise e, w') => (Raise e, w')
  end.

Definition raise {A} (e : exn) : M A := λ w, (Raise e, w).
Definition emit (ev : event) : M unit :=
  λ w, (Ok tt, mkWorld (fs w) (objs w) (trace w ++ [ev])).

(** [for x in l: body(x)] *)
Fixpoint for_each {A} (l : list A) (body : A → M unit) : M unit :=
  match l with
  | [] => mret tt
  | x :: rest => body x ;; for_each rest body
  end.

Definition cell_spec : gmap string (gmap string string) :=
  list_to_map [
    ("DeepAxoaxonic", list_to_map [("proto", "DeepAxoaxonic.p")]);
    ("DeepBasket", list_to_map [("proto", "DeepBasket.p")]);
    ("DeepLTS", list_to_map [("proto", "DeepLTS.p");
                             ("levels", "DeepLTS.levels")]);
    ("NontuftedRS", list_to_map [("proto", "NontuftedRS.p");
                                 ("depths", "NontuftedRS.depths");
                                 ("levels", "NontuftedRS.levels")]);
    ("nRT", list_to_map [("proto", "nRT.p")]);
    ("SpinyStellate", list_to_map [("proto", "SpinyStellate.p");
                                   ("levels", "SpinyStellate.levels")]);
    ("SupAxoaxonic", list_to_map [("proto", "SupAxoaxonic.p");
                                  ("levels", "SupAxoaxonic.levels")]);
    ("SupBasket", list_to_map [("proto", "SupBasket.p")]);
    ("SupLTS", list_to_map [("proto", "SupLTS.p")]);
    ("SupPyrFRB", list_to_map [("proto", "SupPyrFRB.p");
                               ("depths", "SupPyrFRB.depths");
                               ("levels", "SupPyrFRB.levels")]);
    ("SupPyrRS", list_to_map [("proto", "SupPyrRS.p")]);
    ("TCR", list_to_map [("proto", "TCR.p"); ("levels", "TCR.levels")]);
    ("TuftedIB", list_to_map [("proto", "TuftedIB.p");
                              ("levels", "TuftedIB.levels")]);
    ("TuftedRS", list_to_map [("proto", "TuftedRS.p")])
  ].

(** [os.path.join(a, b)] for two components. *)
Definition path_join (a b : string) : string :=
  if String.prefix "/" b then b
  else if decide (a = "") then b
  else if decide (last (String.list_ascii_of_string a)
                  = Some (Ascii.ascii_of_nat 47))
  then a ++ b
  else a ++ "/" ++ b.

(** [pd.read_csv(file, ...).to_dict()]: the parsed file, or an exception
    when there is none. *)
Definition read_csv_to_dict (file : string) : M frame := λ w,
  let w' := mkWorld (fs w) (objs w) (trace w ++ [EvReadCsv file]) in
  match fs w !! file with
  | Some f => (Ok f, w')
  | None => (Raise (FileNotFoundError file), w')
  end.

(** [depths[level]] where [level] is itself a dict (a column of the levels
    frame): a dict is not hashable. *)
Definition getitem_dict_key (depths : frame) (level : column) : M scalar :=
  raise (TypeError "unhashable type: 'dict'").

(** [moose.element(p)] *)
Definition element (p : string) : M Elem := λ w,
  match objs w !! p with
  | Some _ => (Ok (mkElem p), w)
  | None => (Raise (MooseError p), w)
  end.

(** [comp.field = x] *)
Definition setattr (comp : Elem) (field : string) (x : scalar) : M unit := λ w,
  (Ok tt, mkWorld (fs w)
            (<[path comp := <[field := x]> (default ∅ (objs w !! path comp))]>
               (objs w))
            (trace w)).

Definition assign_depths (proto : Elem) (cell_spec : gmap string string)
    (protodir : string) : M unit :=
  let fdepth := cell_spec !! "depth" in
  let flevels := cell_spec !! "levels" in
  match fdepth with
  | None => mret tt
  | Some _ =>
    let dfile := cell_spec !! "depths" in
    let lfile := cell_spec !! "levels" in
    match dfile, lfile with
    | Some dfile, Some lfile =>
      depths ← read_csv_to_dict (path_join protodir dfile);
      levels ← read_csv_to_dict (path_join protodir lfile);
      for_each levels (λ '(num, level),
        depth ← getitem_dict_key depths level;
        comp ← element (path proto ++ "/comp_" ++ num);
        setattr comp "z" depth)
    | _, _ => mret tt
    end
  end.

(** The functions of [channels.py] and of the simulator that [get_cell]
    calls; they are not part of this file. *)
Class Externals := {
  get_proto : string → string → M (option Elem);
  init_channels : M unit;
  loadModel : string → string → M Elem
}.

(** [spec[key]] *)
Definition getitem (spec : gmap string string) (key : string) : M string :=
  match spec !! key with
  | Some x => mret x
  | None => raise (KeyError key)
  end.

(** [if cell:] takes an element for true and [None] for false. *)
Definition get_cell `{Externals} (name : string) (spec : gmap string string)
    (parent protodir : string) : M (option Elem) :=
  cell ← get_proto name parent;
  match cell with
  | Some c => mret (Some c)
  | None =>
    init_channels ;;
    let cell_path := parent ++ "/" ++ name in
    proto_file ← getitem spec "proto";
    let file_path := path_join protodir proto_file in
    proto ← loadModel file_path cell_path;
    assign_depths proto spec protodir ;;
    mret None
  end.

(** A simulator that only keeps the object tree and records its calls:
    [get_proto] finds the element at [parent/name], [init_channels] leaves a
    mark in the trace, [loadModel] creates the element at [cell_path]. *)
Definition recording_externals : Externals := {|
  get_proto := λ name parent w,
    (Ok (match objs w !! (parent ++ "/" ++ name) with
         | Some _ => Some (mkElem (parent ++ "/" ++ name))
         | None => None
         end), w);
  init_channels := emit EvInitChannels;
  loadModel := λ file_path cell_path w,
    (Ok (mkElem cell_path),
     mkWorld (fs w) (<[cell_path := ∅]> (objs w))
             (trace w ++ [EvLoadModel file_path cell_path]))
|}.

Definition empty_world : World := mkWorld ∅ ∅ [].

(** The items of [cell_spec], in the order of the source. *)
Definition cell_spec_items : list (string * gmap string string) := [
    ("DeepAxoaxonic", list_to_map [("proto", "DeepAxoaxonic.p")]);
    ("DeepBasket", list_to_map [("proto", "DeepBasket.p")]);
    ("DeepLTS", list_to_map [("proto", "DeepLTS.p");
                             ("levels", "DeepLTS.levels")]);
    ("NontuftedRS", list_to_map [("proto", "NontuftedRS.p");
                                 ("depths", "NontuftedRS.depths");
                                 ("levels", "NontuftedRS.levels")]);
    ("nRT", list_to_map [("proto", "nRT.p")]);
    ("SpinyStellate", list_to_map [("proto", "SpinyStellate.p");
                                   ("levels", "SpinyStellate.levels")]);
    ("SupAxoaxonic", list_to_map [("proto", "SupAxoaxonic.p");
                                  ("levels", "SupAxoaxonic.levels")]);
    ("SupBasket", list_to_map [("proto", "SupBasket.p")]);
    ("SupLTS", list_to_map [("proto", "SupLTS.p")]);
    ("SupPyrFRB", list_to_map [("proto", "SupPyrFRB.p");
                               ("depths", "SupPyrFRB.depths");
                               ("levels", "SupPyrFRB.levels")]);
    ("SupPyrRS", list_to_map [("proto", "SupPyrRS.p")]);
    ("TCR", list_to_map [("proto", "TCR.p"); ("levels", "TCR.levels")]);
    ("TuftedIB", list_to_map [("proto", "TuftedIB.p");
                              ("levels", "TuftedIB.levels")]);
    ("TuftedRS", list_to_map [("proto", "TuftedRS.p")])
  ].

(** The loop of [init_cells]: [cells[name] = get_cell(name, spec=spec)] for
    each item, with the default [parent] and [protodir] of [get_cell]. *)
Fixpoint init_cells_loop `{Externals}
    (items : list (string * gmap string string))
    (cells : gmap string (option Elem)) : M (gmap string (option Elem)) :=
  match items with
  | [] => mret cells
  | (name, spec) :: rest =>
    c ← get_cell name spec "/library" "proto";
    init_cells_loop rest (<[name := c]> cells)
  end.

Definition init_cells `{Externals} : M (gmap string (option Elem)) :=
  init_channels ;; init_cells_loop cell_spec_items ∅.

End Cells.

(** * Properties *)

(** ** Checked arithmetic *)

Lemma fdiv_nonzero (a b : R) : b ≠ 0 → fdiv a b = Some (a / b).
Proof. intros Hb. unfold fdiv. case_decide; [contradiction | reflexivity]. Qed.

Lemma fdiv_zero (a : R) : fdiv a 0 = None.
Proof. unfold fdiv. case_decide; [reflexivity | contradiction]. Qed.

Lemma obind_Some {A B : Type} (f : A → option B) (a : A) :
  (Some a ≫= f) = f a.
Proof. reflexivity. Qed.

Lemma exp_eq_1 (x : R) : exp x = 1 → x = 0.
Proof. intros Hx. apply exp_inv. rewrite exp_0. exact Hx. Qed.

Lemma one_plus_exp_nonzero (x : R) : 1 + exp x ≠ 0.
Proof. pose proof (exp_pos x). lra. Qed.

Lemma exp_sum_pos (c x y : R) : 0 < c → 0 < c * exp x + c * exp y.
Proof.
  intros Hc. pose proof (exp_pos x). pose proof (exp_pos y). nra.
Qed.

Lemma exp_gt_1 (x : R) : 0 < x → 1 < exp x.
Proof. intros Hx. rewrite <- exp_0. apply exp_increasing. exact Hx. Qed.

Lemma exp_lt_1 (x : R) : x < 0 → exp x < 1.
Proof. intros Hx. rewrite <- exp_0. apply exp_increasing. exact Hx. Qed.

(** ** Arrays built over one grid *)

Lemma linspace_length (a b : R) (n : nat) : length (linspace a b n) = n.
Proof. unfold linspace. rewrite length_fmap. apply length_seq. Qed.

Lemma linspace_lookup (a b : R) (n i : nat) :
  (i < n)%nat →
  linspace a b n !! i = Some (a + INR i * ((b - a) / INR (n - 1))).
Proof.
  intros Hi. unfold linspace. rewrite list_lookup_fmap.
  rewrite (proj2 (lookup_seq 0 n i i)); [reflexivity | split; [lia | exact Hi]].
Qed.

(** ** The voltage grid of granule_cell_hhchannel.py *)

Module HHFacts.
Import HH.

Lemma INR_vdivs : INR (vdivs + 1 - 1) = 640.
Proof. rewrite INR_IZR_INZ. vm_compute Z.of_nat. reflexivity. Qed.

Lemma V_length : length V = (vdivs + 1)%nat.
Proof. unfold V, v. rewrite length_fmap. apply linspace_length. Qed.

Lemma V_lookup (i : nat) : (i <= vdivs)%nat → V !! i = Some (V_at i).
Proof.
  intros Hi. unfold V, v. rewrite list_lookup_fmap.
  rewrite linspace_lookup by lia. rewrite INR_vdivs. reflexivity.
Qed.

Lemma V_Forall (P : R → Prop) :
  (∀ i, (i <= vdivs)%nat → P (V_at i)) → Forall P V.
Proof.
  intros HP. apply Forall_lookup. intros i x Hx.
  assert (Hi : (i <= vdivs)%nat).
  { apply lookup_lt_Some in Hx. rewrite V_length in Hx. lia. }
  rewrite (V_lookup i Hi) in Hx. injection Hx as <-. apply HP, Hi.
Qed.

Lemma INR_index_bounds (i : nat) : (i <= vdivs)%nat → 0 <= INR i <= 640.
Proof.
  intros Hi. rewrite INR_IZR_INZ. split.
  - apply IZR_le. lia.
  - apply IZR_le. unfold vdivs in Hi. lia.
Qed.

Lemma V_at_bounds (i : nat) : (i <= vdivs)%nat → -0.16 <= V_at i <= 0.09.
Proof.
  intros Hi. pose proof (INR_index_bounds i Hi) as Hb.
  unfold V_at, vmin, vmax, v_offset. lra.
Qed.

(** No grid point is the singular voltage of the CaHVA beta rate:
    [V_at i = -8.9e-3] would need [10000 * i = 3868160]. *)
Lemma V_at_off_singularity (i : nat) : V_at i - (-8.9e-3) ≠ 0.
Proof.
  unfold V_at, vmin, vmax, v_offset. rewrite INR_IZR_INZ. intros Heq.
  assert (Hz : IZR (Z.of_nat i * 10000) = IZR 3868160).
  { rewrite mult_IZR. lra. }
  apply eq_IZR in Hz. lia.
Qed.

Lemma q10_mul_gt_1 : 1 < q10_mul.
Proof.
  unfold q10_mul, Rpower, Q10, temp, temp_exp. apply exp_gt_1.
  apply Rmult_lt_0_compat; [lra |].
  rewrite <- ln_1. apply ln_increasing; lra.
Qed.

Lemma q10_mul_pos : 0 < q10_mul.
Proof. pose proof q10_mul_gt_1. lra. Qed.

End HHFacts.

(** ** Lookups in array expressions *)

Section Lookups.
Context (x y : ndarray) (i : nat) (a b : R).
Hypothesis Hx : x !! i = Some (Some a).
Hypothesis Hy : y !! i = Some (Some b).

Lemma np_add_lookup : np_add x y !! i = Some (Some (a + b)).
Proof. unfold np_add. rewrite lookup_zip_with, Hx, Hy. reflexivity. Qed.

Lemma np_sub_lookup : np_sub x y !! i = Some (Some (a - b)).
Proof. unfold np_sub. rewrite lookup_zip_with, Hx, Hy. reflexivity. Qed.

Lemma np_div_lookup : b ≠ 0 → np_div x y !! i = Some (Some (a / b)).
Proof.
  intros Hb. unfold np_div. rewrite lookup_zip_with, Hx, Hy. cbn.
  rewrite fdiv_nonzero by exact Hb. reflexivity.
Qed.

Lemma np_rdiv_lookup (c : R) :
  b ≠ 0 → np_rdiv c y !! i = Some (Some (c / b)).
Proof.
  intros Hb. unfold np_rdiv. rewrite list_lookup_fmap, Hy. cbn.
  rewrite fdiv_nonzero by exact Hb. reflexivity.
Qed.

Lemma zip_lift2_lookup (f : R → R → option R) :
  zip_with (lift2 f) x y !! i = Some (f a b).
Proof. rewrite lookup_zip_with, Hx, Hy. reflexivity. Qed.
End Lookups.

Lemma np_add_length (x y : ndarray) (n : nat) :
  length x = n → length y = n → length (np_add x y) = n.
Proof. intros Hx Hy. unfold np_add. rewrite length_zip_with. lia. Qed.

Lemma np_div_length (x y : ndarray) (n : nat) :
  length x = n → length y = n → length (np_div x y) = n.
Proof. intros Hx Hy. unfold np_div. rewrite length_zip_with. lia. Qed.

Lemma zip_lift2_length (f : R → R → option R) (x y : ndarray) (n : nat) :
  length x = n → length y = n → length (zip_with (lift2 f) x y) = n.
Proof. intros Hx Hy. rewrite length_zip_with. lia. Qed.

Lemma np_rdiv_length (c : R) (y : ndarray) : length (np_rdiv c y) = length y.
Proof. unfold np_rdiv. apply length_fmap. Qed.

(** An array all of whose entries are found finite by lookup. *)
Lemma finite_by_lookup (t : ndarray) (n : nat) :
  length t = n →
  (∀ i, (i < n)%nat → ∃ r, t !! i = Some (Some r)) →
  Forall is_Some t.
Proof.
  intros Hlen Hall. apply Forall_lookup. intros i x Hx.
  assert (Hi : (i < n)%nat) by (apply lookup_lt_Some in Hx; lia).
  destruct (Hall i Hi) as [r Hr]. rewrite Hr in Hx. injection Hx as <-.
  eexists. reflexivity.
Qed.

(** ** Rates of granule_cell_hhchannel.py at the grid points *)

Module HHRates.
Import HH HHFacts.

Lemma on_grid (f : R → option R) (i : nat) :
  (i <= vdivs)%nat → (f <$> V) !! i = Some (f (V_at i)).
Proof. intros Hi. rewrite list_lookup_fmap, (V_lookup i Hi). reflexivity. Qed.

Lemma on_grid_length (f : R → option R) : length (f <$> V) = (vdivs + 1)%nat.
Proof. rewrite length_fmap. apply V_length. Qed.

(** *** CaHVA *)

Lemma CaHVA_alpha_m_val (q x : R) :
  CaHVA_alpha_m_at q x = Some (1600 / (1 + exp (-72 * (x - 5e-3))) * q).
Proof.
  unfold CaHVA_alpha_m_at.
  rewrite fdiv_nonzero by apply one_plus_exp_nonzero. reflexivity.
Qed.

Lemma CaHVA_beta_m_val (q x : R) :
  x - (-8.9e-3) ≠ 0 →
  CaHVA_beta_m_at q x =
    Some (100 * ((x - (-8.9e-3)) / (-0.005))
          / (1 - exp (- ((x - (-8.9e-3)) / (-0.005)))) * q).
Proof.
  intros Hx. unfold CaHVA_beta_m_at, CaHVA_x_at.
  rewrite fdiv_nonzero by lra. rewrite ?obind_Some.
  rewrite fdiv_nonzero; [reflexivity |].
  intros H0. assert (He : exp (- ((x - (-8.9e-3)) / (-0.005))) = 1) by lra.
  apply exp_eq_1 in He. apply Hx.
  assert (Hd : (x - (-8.9e-3)) / (-0.005) = 0) by lra.
  unfold Rdiv in Hd. apply Rmult_integral in Hd. destruct Hd as [Hd | Hd].
  - exact Hd.
  - exfalso. revert Hd. apply Rinv_neq_0_compat. lra.
Qed.

Lemma CaHVA_alpha_h_finite (q x : R) : ∃ a, CaHVA_alpha_h_at q x = Some a.
Proof. unfold CaHVA_alpha_h_at. case_decide; eexists; reflexivity. Qed.

Lemma CaHVA_beta_h_finite (q x : R) : ∃ b, CaHVA_beta_h_at q x = Some b.
Proof. unfold CaHVA_beta_h_at. case_decide; eexists; reflexivity. Qed.

(** The sum [alpha_h + beta_h] is [5 q] on both sides of the cut. *)
Lemma CaHVA_h_sum (q x a b : R) :
  CaHVA_alpha_h_at q x = Some a → CaHVA_beta_h_at q x = Some b →
  a + b = 5 * q.
Proof.
  unfold CaHVA_alpha_h_at, CaHVA_beta_h_at.
  case_decide; intros [= <-] [= <-]; [lra |].
  replace (-50 * (x - (-0.060))) with (-50 * (x - (-0.06))) by lra.
  lra.
Qed.

(** *** KDR *)

Lemma KDR_alpha_h_val (q x : R) :
  ∃ a, 0.7 <= a ∧ KDR_alpha_h_at 1 x = Some a ∧
       KDR_alpha_h_at q x = Some (a * q).
Proof.
  unfold KDR_alpha_h_at. case_decide.
  - exists 0.76. rewrite ?obind_Some. split; [lra |]. split; [f_equal; lra | reflexivity].
  - exists (0.7 + 0.065 * exp (-80 * (x - (-46e-3)))). rewrite ?obind_Some.
    pose proof (exp_pos (-80 * (x - (-46e-3)))).
    split; [lra |]. split; [f_equal; lra | reflexivity].
Qed.

Lemma KDR_beta_h_val (q x : R) :
  ∃ b, 0 < b ∧ KDR_beta_h_at 1 x = Some b ∧ KDR_beta_h_at q x = Some (b * q).
Proof.
  unfold KDR_beta_h_at. exists (1.1 / (1 + exp (-80.7 * (x - (-0.044))))).
  rewrite fdiv_nonzero by apply one_plus_exp_nonzero. rewrite ?obind_Some.
  pose proof (exp_pos (-80.7 * (x - (-0.044)))).
  split; [apply Rdiv_lt_0_compat; lra |].
  split; [f_equal; lra | reflexivity].
Qed.

(** *** NaF *)

Lemma NaF_tau_val (floor q a b : R) :
  0 < a + b → q ≠ 0 →
  NaF_tau_at floor q a b = Some (Rmax (1 / (a + b)) floor / q).
Proof.
  intros Hab Hq. unfold NaF_tau_at.
  case_decide; [lra |].
  rewrite fdiv_nonzero by lra. rewrite ?obind_Some. apply fdiv_nonzero, Hq.
Qed.

Lemma NaF_inf_val (a b : R) : 0 < a + b → NaF_inf_at a b = Some (a / (a + b)).
Proof. intros Hab. unfold NaF_inf_at. apply fdiv_nonzero. lra. Qed.

Lemma Rmax_floor_pos (t floor : R) : 0 < floor → 0 < Rmax t floor.
Proof. intros Hf. pose proof (Rmax_r t floor). lra. Qed.

End HHRates.

(** ** The rate arrays at a grid index *)

Module HHArrays.
Import HH HHFacts HHRates.

(** [x / (1 - exp(-x))] is positive away from [x = 0]. *)
Lemma ratio_pos (x : R) : x ≠ 0 → 0 < x / (1 - exp (- x)).
Proof.
  intros Hx. destruct (Rlt_le_dec 0 x) as [Hpos | Hneg].
  - apply Rdiv_lt_0_compat; [exact Hpos |].
    pose proof (exp_lt_1 (- x)). lra.
  - assert (Hlt : x < 0) by lra.
    pose proof (exp_gt_1 (- x)) as Hg.
    replace (x / (1 - exp (- x))) with ((- x) / (exp (- x) - 1)).
    + apply Rdiv_lt_0_compat; lra.
    + field. lra.
Qed.

Lemma CaHVA_m_at (q : R) (i : nat) :
  (i <= vdivs)%nat →
  ∃ a b, CaHVA_alpha_m q !! i = Some (Some a) ∧
         CaHVA_beta_m q !! i = Some (Some b) ∧
         (0 < q → 0 < a ∧ 0 < b).
Proof.
  intros Hi. unfold CaHVA_alpha_m, CaHVA_beta_m.
  rewrite !on_grid by exact Hi.
  rewrite CaHVA_alpha_m_val.
  rewrite CaHVA_beta_m_val by apply V_at_off_singularity.
  eexists _, _. split; [reflexivity |]. split; [reflexivity |].
  intros Hq. split.
  - apply Rmult_lt_0_compat; [| exact Hq].
    pose proof (exp_pos (-72 * (V_at i - 5e-3))).
    apply Rdiv_lt_0_compat; lra.
  - apply Rmult_lt_0_compat; [| exact Hq].
    set (x := (V_at i - (-8.9e-3)) / (-0.005)).
    assert (Hx : x ≠ 0).
    { unfold x. pose proof (V_at_off_singularity i) as Hs.
      intros H0. apply Hs.
      replace (V_at i - (-8.9e-3)) with (x * (-0.005)) by (unfold x; field; lra).
      unfold x. rewrite H0. lra. }
    pose proof (ratio_pos x Hx) as Hr.
    replace (100 * x / (1 - exp (- x))) with (100 * (x / (1 - exp (- x)))).
    + lra.
    + unfold Rdiv. ring.
Qed.

Lemma CaHVA_h_at (q : R) (i : nat) :
  (i <= vdivs)%nat →
  ∃ a b, CaHVA_alpha_h q !! i = Some (Some a) ∧
         CaHVA_beta_h q !! i = Some (Some b) ∧
         a + b = 5 * q.
Proof.
  intros Hi. unfold CaHVA_alpha_h, CaHVA_beta_h.
  rewrite !on_grid by exact Hi.
  destruct (CaHVA_alpha_h_finite q (V_at i)) as [a Ha].
  destruct (CaHVA_beta_h_finite q (V_at i)) as [b Hb].
  exists a, b. rewrite Ha, Hb. split; [reflexivity |]. split; [reflexivity |].
  exact (CaHVA_h_sum q (V_at i) a b Ha Hb).
Qed.

Lemma KDR_m_at (q : R) (i : nat) :
  (i <= vdivs)%nat →
  ∃ a b, 0 < a ∧ 0 < b ∧
         KDR_alpha_m 1 !! i = Some (Some a) ∧
         KDR_beta_m 1 !! i = Some (Some b) ∧
         KDR_alpha_m q !! i = Some (Some (q * a)) ∧
         KDR_beta_m q !! i = Some (Some (q * b)).
Proof.
  intros Hi. unfold KDR_alpha_m, KDR_beta_m.
  rewrite !on_grid by exact Hi. unfold KDR_alpha_m_at, KDR_beta_m_at.
  exists (170 * exp (73 * (V_at i - (-38e-3)))),
         (170 * exp (-18 * (V_at i - (-38e-3)))).
  pose proof (exp_pos (73 * (V_at i - (-38e-3)))).
  pose proof (exp_pos (-18 * (V_at i - (-38e-3)))).
  split; [lra |]. split; [lra |].
  repeat split; do 2 f_equal; ring.
Qed.

Lemma KDR_h_at (q : R) (i : nat) :
  (i <= vdivs)%nat →
  ∃ a b, 0 < a ∧ 0 < b ∧
         KDR_alpha_h 1 !! i = Some (Some a) ∧
         KDR_beta_h 1 !! i = Some (Some b) ∧
         KDR_alpha_h q !! i = Some (Some (q * a)) ∧
         KDR_beta_h q !! i = Some (Some (q * b)).
Proof.
  intros Hi. unfold KDR_alpha_h, KDR_beta_h.
  rewrite !on_grid by exact Hi.
  destruct (KDR_alpha_h_val q (V_at i)) as (a & Ha & Ha1 & Haq).
  destruct (KDR_beta_h_val q (V_at i)) as (b & Hb & Hb1 & Hbq).
  exists a, b. rewrite Ha1, Hb1, Haq, Hbq.
  split; [lra |]. split; [lra |].
  repeat split; do 2 f_equal; ring.
Qed.

Lemma NaF_m_at (i : nat) :
  (i <= vdivs)%nat →
  ∃ a b, 0 < a ∧ 0 < b ∧
         a = 1500 * exp (81 * (V_at i - (-39e-3))) ∧
         b = 1500 * exp (-66 * (V_at i - (-39e-3))) ∧
         NaF_alpha_m !! i = Some (Some a) ∧
         NaF_beta_m !! i = Some (Some b).
Proof.
  intros Hi. unfold NaF_alpha_m, NaF_beta_m.
  rewrite !on_grid by exact Hi. unfold NaF_alpha_m_at, NaF_beta_m_at.
  eexists _, _.
  pose proof (exp_pos (81 * (V_at i - (-39e-3)))).
  pose proof (exp_pos (-66 * (V_at i - (-39e-3)))).
  split; [| split; [| repeat split]]; lra.
Qed.

Lemma NaF_h_at (i : nat) :
  (i <= vdivs)%nat →
  ∃ a b, 0 < a ∧ 0 < b ∧
         NaF_alpha_h !! i = Some (Some a) ∧
         NaF_beta_h !! i = Some (Some b).
Proof.
  intros Hi. unfold NaF_alpha_h, NaF_beta_h.
  rewrite !on_grid by exact Hi. unfold NaF_alpha_h_at, NaF_beta_h_at.
  eexists _, _.
  pose proof (exp_pos (-89 * (V_at i - (-0.05)))).
  pose proof (exp_pos (89 * (V_at i - (-0.05)))).
  split; [| split; [| repeat split]]; lra.
Qed.

(** The NaF tables of one gate, from the rates [a] and [b] at an index. *)
Lemma NaF_tables_at (floor q : R) (alpha beta : ndarray) (i : nat) (a b : R) :
  0 < floor → 0 < q → 0 < a → 0 < b →
  alpha !! i = Some (Some a) → beta !! i = Some (Some b) →
  let tau := NaF_tau_arr floor q alpha beta in
  let inf := NaF_inf_arr alpha beta in
  let t := Rmax (1 / (a + b)) floor / q in
  0 < t ∧
  tau !! i = Some (Some t) ∧
  inf !! i = Some (Some (a / (a + b))) ∧
  np_div inf tau !! i = Some (Some (a / (a + b) / t)) ∧
  np_rdiv 1 tau !! i = Some (Some (1 / t)).
Proof.
  intros Hf Hq Ha Hb Hal Hbe tau inf t.
  assert (Ht : 0 < t).
  { unfold t. apply Rdiv_lt_0_compat; [apply Rmax_floor_pos, Hf | exact Hq]. }
  assert (Htau : tau !! i = Some (Some t)).
  { unfold tau, NaF_tau_arr. rewrite (zip_lift2_lookup alpha beta i a b Hal Hbe).
    rewrite NaF_tau_val by lra. reflexivity. }
  assert (Hinf : inf !! i = Some (Some (a / (a + b)))).
  { unfold inf, NaF_inf_arr. rewrite (zip_lift2_lookup alpha beta i a b Hal Hbe).
    rewrite NaF_inf_val by lra. reflexivity. }
  split; [exact Ht |]. split; [exact Htau |]. split; [exact Hinf |]. split.
  - apply (np_div_lookup inf tau i _ t Hinf Htau). lra.
  - apply (np_rdiv_lookup tau i t Htau). lra.
Qed.

End HHArrays.

(** ** Gates of granule_cell_hhchannel.py *)

Module HHGates.
Import HH HHFacts HHRates HHArrays.

Section AlphaBetaGate.
Context (alpha beta : ndarray) (mn mx : R) (d : nat) (u : bool).
Let g := mkHHGate alpha (np_add alpha beta) mn mx d u.

Lemma alpha_beta_gate_encoding (i : nat) (a b : R) :
  alpha !! i = Some (Some a) → beta !! i = Some (Some b) → a + b ≠ 0 →
  alpha_beta_encoding alpha beta g i.
Proof.
  intros Ha Hb Hab. exists a, b.
  pose proof (np_add_lookup alpha beta i a b Ha Hb) as HB.
  split; [exact Ha |]. split; [exact Hb |]. split; [exact Ha |].
  split; [exact HB |]. split; [exact Ha |]. split; [| split].
  - unfold plot_beta. cbn [tableA tableB g].
    rewrite (np_sub_lookup _ _ i (a + b) a HB Ha). do 2 f_equal. ring.
  - unfold plot_tau. cbn [tableB g].
    exact (np_rdiv_lookup _ i (a + b) HB 1 Hab).
  - unfold plot_inf. cbn [tableA tableB g].
    exact (np_div_lookup _ _ i a (a + b) Ha HB Hab).
Qed.

Lemma alpha_beta_gate_finite :
  length alpha = (d + 1)%nat → length beta = (d + 1)%nat →
  (∀ i, (i < d + 1)%nat →
     ∃ a b, alpha !! i = Some (Some a) ∧ beta !! i = Some (Some b)) →
  finite_gate g.
Proof.
  intros Hla Hlb Hall. unfold finite_gate, finite_table. cbn [divs tableA tableB g].
  split; split.
  - exact Hla.
  - apply (finite_by_lookup alpha (d + 1) Hla). intros i Hi.
    destruct (Hall i Hi) as (a & b & Ha & _). exists a. exact Ha.
  - apply np_add_length; assumption.
  - apply (finite_by_lookup _ (d + 1)).
    + apply np_add_length; assumption.
    + intros i Hi. destruct (Hall i Hi) as (a & b & Ha & Hb).
      exists (a + b). exact (np_add_lookup alpha beta i a b Ha Hb).
Qed.
End AlphaBetaGate.

Section TauInfGate.
Context (tau inf : ndarray) (mn mx : R) (d : nat) (u : bool).
Let g := mkHHGate (np_div inf tau) (np_rdiv 1 tau) mn mx d u.

Lemma tau_inf_gate_encoding (i : nat) (t x : R) :
  tau !! i = Some (Some t) → inf !! i = Some (Some x) → t ≠ 0 →
  tau_inf_encoding tau inf g i.
Proof.
  intros Ht Hx Ht0. exists t, x.
  pose proof (np_div_lookup inf tau i x t Hx Ht Ht0) as HA.
  pose proof (np_rdiv_lookup tau i t Ht 1 Ht0) as HB.
  assert (Hinv : 1 / t ≠ 0).
  { unfold Rdiv. rewrite Rmult_1_l. apply Rinv_neq_0_compat, Ht0. }
  split; [exact Ht |]. split; [exact Hx |]. split; [exact HA |].
  split; [exact HB |]. split; [| split].
  - unfold plot_beta. cbn [tableA tableB g].
    exact (np_sub_lookup _ _ i (1 / t) (x / t) HB HA).
  - unfold plot_tau. cbn [tableB g].
    rewrite (np_rdiv_lookup _ i (1 / t) HB 1 Hinv). do 2 f_equal.
    field. exact Ht0.
  - unfold plot_inf. cbn [tableA tableB g].
    rewrite (np_div_lookup _ _ i (x / t) (1 / t) HA HB Hinv). do 2 f_equal.
    field. exact Ht0.
Qed.

Lemma tau_inf_gate_finite :
  length tau = (d + 1)%nat → length inf = (d + 1)%nat →
  (∀ i, (i < d + 1)%nat →
     ∃ t x, t ≠ 0 ∧ tau !! i = Some (Some t) ∧ inf !! i = Some (Some x)) →
  finite_gate g.
Proof.
  intros Hlt Hli Hall. unfold finite_gate, finite_table.
  cbn [divs tableA tableB g]. split; split.
  - apply np_div_length; assumption.
  - apply (finite_by_lookup _ (d + 1)).
    + apply np_div_length; assumption.
    + intros i Hi. destruct (Hall i Hi) as (t & x & Ht0 & Ht & Hx).
      exists (x / t). exact (np_div_lookup inf tau i x t Hx Ht Ht0).
  - rewrite np_rdiv_length. exact Hlt.
  - apply (finite_by_lookup _ (d + 1)).
    + rewrite np_rdiv_length. exact Hlt.
    + intros i Hi. destruct (Hall i Hi) as (t & x & Ht0 & Ht & Hx).
      exists (1 / t). exact (np_rdiv_lookup tau i t Ht 1 Ht0).
Qed.
End TauInfGate.

Lemma index_in_range (i : nat) : (i < vdivs + 1)%nat → (i <= vdivs)%nat.
Proof. lia. Qed.

Lemma CaHVA_gates_finite (q : R) :
  finite_gate (gateX (make_channel_CaHVA_q q)) ∧
  finite_gate (gateY (make_channel_CaHVA_q q)).
Proof.
  split; apply alpha_beta_gate_finite; try apply on_grid_length.
  - intros i Hi. apply index_in_range in Hi.
    destruct (CaHVA_m_at q i Hi) as (a & b & Ha & Hb & _). eauto.
  - intros i Hi. apply index_in_range in Hi.
    destruct (CaHVA_h_at q i Hi) as (a & b & Ha & Hb & _). eauto.
Qed.

Lemma KDR_gates_finite (q : R) :
  finite_gate (gateX (make_channel_KDR_q q)) ∧
  finite_gate (gateY (make_channel_KDR_q q)).
Proof.
  split; apply alpha_beta_gate_finite; try apply on_grid_length.
  - intros i Hi. apply index_in_range in Hi.
    destruct (KDR_m_at q i Hi) as (a & b & _ & _ & _ & _ & Ha & Hb). eauto.
  - intros i Hi. apply index_in_range in Hi.
    destruct (KDR_h_at q i Hi) as (a & b & _ & _ & _ & _ & Ha & Hb). eauto.
Qed.

Lemma NaF_arr_length (f : R → R → option R) (alpha beta : R → option R) :
  length (zip_with (lift2 f) (alpha <$> V) (beta <$> V)) = (vdivs + 1)%nat.
Proof. apply zip_lift2_length; apply on_grid_length. Qed.

Lemma NaF_gates_finite (q : R) :
  0 < q →
  finite_gate (gateX (make_channel_NaF_q q)) ∧
  finite_gate (gateY (make_channel_NaF_q q)).
Proof.
  intros Hq. split; apply tau_inf_gate_finite; try apply NaF_arr_length.
  - intros i Hi. apply index_in_range in Hi.
    destruct (NaF_m_at i Hi) as (a & b & Ha & Hb & _ & _ & Hal & Hbe).
    destruct (NaF_tables_at 5e-5 q _ _ i a b ltac:(lra) Hq Ha Hb Hal Hbe)
      as (Ht & Htau & Hinf & _).
    eexists _, _. split; [| split; [exact Htau | exact Hinf]]. lra.
  - intros i Hi. apply index_in_range in Hi.
    destruct (NaF_h_at i Hi) as (a & b & Ha & Hb & Hal & Hbe).
    destruct (NaF_tables_at 2.25e-4 q _ _ i a b ltac:(lra) Hq Ha Hb Hal Hbe)
      as (Ht & Htau & Hinf & _).
    eexists _, _. split; [| split; [exact Htau | exact Hinf]]. lra.
Qed.

End HHGates.

(** * The claims *)

Import HH HHFacts HHRates HHArrays HHGates.

(** C8: after table construction over the grid
    [linspace(vmin, vmax, vdivs + 1)] with [vmin = -150e-3], [vmax = 100e-3],
    [vdivs = 640], every entry of [tableA] and [tableB] of every channel
    built from tables (CaHVA, KDR, NaF; gates X and Y) is finite and each
    table has [vdivs + 1] entries.  This includes the CaHVA m-gate beta array
    [100*x/(1 - exp(-x))]: no grid voltage is the singular one,
    [V = -8.9e-3].  All grid voltages lie in [-0.16, 0.09], which keeps
    every exponent of the rate formulas below 31 in absolute value. *)
Theorem C8_tables_finite :
  vmin = -150e-3 ∧ vmax = 100e-3 ∧ vdivs = 640%nat ∧
  length v = (vdivs + 1)%nat ∧
  finite_gate (gateX make_channel_CaHVA) ∧
  finite_gate (gateY make_channel_CaHVA) ∧
  finite_gate (gateX make_channel_KDR) ∧
  finite_gate (gateY make_channel_KDR) ∧
  finite_gate (gateX make_channel_NaF) ∧
  finite_gate (gateY make_channel_NaF) ∧
  finite_table (vdivs + 1) (CaHVA_beta_m q10_mul) ∧
  Forall (λ Vx, Vx ≠ -8.9e-3) V ∧
  Forall (λ Vx, -0.16 <= Vx <= 0.09) V.
Proof.
  split; [reflexivity |]. split; [reflexivity |]. split; [reflexivity |].
  split; [apply linspace_length |].
  destruct (CaHVA_gates_finite q10_mul) as [Hcx Hcy].
  destruct (KDR_gates_finite q10_mul) as [Hkx Hky].
  destruct (NaF_gates_finite q10_mul q10_mul_pos) as [Hnx Hny].
  do 6 (split; [assumption |]). split.
  - split; [apply on_grid_length |].
    apply (finite_by_lookup _ (vdivs + 1)); [apply on_grid_length |].
    intros i Hi. apply index_in_range in Hi.
    destruct (CaHVA_m_at q10_mul i Hi) as (a & b & _ & Hb & _). eauto.
  - split; apply V_Forall.
    + intros i _ Heq. apply (V_at_off_singularity i). rewrite Heq. lra.
    + exact V_at_bounds.
Qed.

(** A gate in alpha/beta form whose two rates are multiplied by [f]. *)
Lemma scaled_alpha_beta_gate (alpha1 beta1 alphaf betaf : ndarray)
    (mn mx : R) (d : nat) (u : bool) (f : R) (i : nat) (a b : R) :
  0 < f → 0 < a → 0 < b →
  alpha1 !! i = Some (Some a) → beta1 !! i = Some (Some b) →
  alphaf !! i = Some (Some (f * a)) → betaf !! i = Some (Some (f * b)) →
  let g1 := mkHHGate alpha1 (np_add alpha1 beta1) mn mx d u in
  let gf := mkHHGate alphaf (np_add alphaf betaf) mn mx d u in
  plot_inf gf !! i = Some (Some (a / (a + b))) ∧
  plot_tau gf !! i = Some (Some (1 / (a + b) / f)) ∧
  q10_invariant g1 gf f i.
Proof.
  intros Hf Ha Hb Ha1 Hb1 Haf Hbf g1 gf.
  assert (Hab : a + b ≠ 0) by lra.
  assert (Hfab : f * a + f * b ≠ 0) by nra.
  destruct (alpha_beta_gate_encoding alpha1 beta1 mn mx d u i a b Ha1 Hb1 Hab)
    as (a1 & b1 & Ea & Eb & _ & _ & _ & _ & Htau1 & Hinf1).
  rewrite Ha1 in Ea. rewrite Hb1 in Eb.
  injection Ea as <-. injection Eb as <-.
  destruct (alpha_beta_gate_encoding alphaf betaf mn mx d u i _ _ Haf Hbf Hfab)
    as (af & bf & Ea & Eb & _ & _ & _ & _ & Htauf & Hinff).
  rewrite Haf in Ea. rewrite Hbf in Eb.
  injection Ea as <-. injection Eb as <-.
  assert (Hinf : plot_inf gf !! i = Some (Some (a / (a + b)))).
  { unfold gf. rewrite Hinff. do 2 f_equal. field. split; lra. }
  assert (Htau : plot_tau gf !! i = Some (Some (1 / (a + b) / f))).
  { unfold gf. rewrite Htauf. do 2 f_equal. field. split; lra. }
  split; [exact Hinf |]. split; [exact Htau |].
  exists (a / (a + b)), (1 / (a + b)).
  split; [exact Hinf1 |]. split; [exact Hinf |].
  split; [exact Htau1 | exact Htau].
Qed.

(** C1: for every grid index and every positive factor [f], the KDR gates
    built with both rates multiplied by [f] have the steady state
    [tableA/tableB = alpha/(alpha+beta)] of the unscaled gates, and the time
    constant [1/tableB] of the unscaled gates divided by [f]. *)
Theorem C1_q10_invariance (f : R) (i : nat) :
  0 < f → (i <= vdivs)%nat →
  (∃ a b,
     KDR_alpha_m 1 !! i = Some (Some a) ∧ KDR_beta_m 1 !! i = Some (Some b) ∧
     KDR_alpha_m f !! i = Some (Some (f * a)) ∧
     KDR_beta_m f !! i = Some (Some (f * b)) ∧
     plot_inf (gateX (make_channel_KDR_q f)) !! i = Some (Some (a / (a + b))) ∧
     plot_tau (gateX (make_channel_KDR_q f)) !! i
       = Some (Some (1 / (a + b) / f))) ∧
  (∃ a b,
     KDR_alpha_h 1 !! i = Some (Some a) ∧ KDR_beta_h 1 !! i = Some (Some b) ∧
     KDR_alpha_h f !! i = Some (Some (f * a)) ∧
     KDR_beta_h f !! i = Some (Some (f * b)) ∧
     plot_inf (gateY (make_channel_KDR_q f)) !! i = Some (Some (a / (a + b))) ∧
     plot_tau (gateY (make_channel_KDR_q f)) !! i
       = Some (Some (1 / (a + b) / f))) ∧
  q10_invariant (gateX (make_channel_KDR_q 1))
                (gateX (make_channel_KDR_q f)) f i ∧
  q10_invariant (gateY (make_channel_KDR_q 1))
                (gateY (make_channel_KDR_q f)) f i.
Proof.
  intros Hf Hi.
  destruct (KDR_m_at f i Hi) as (a & b & Ha & Hb & Ha1 & Hb1 & Haf & Hbf).
  destruct (KDR_h_at f i Hi) as (c & e & Hc & He & Hc1 & He1 & Hcf & Hef).
  destruct (scaled_alpha_beta_gate _ _ _ _ vmin vmax vdivs true f i a b
              Hf Ha Hb Ha1 Hb1 Haf Hbf) as (Hinf & Htau & Hinv).
  destruct (scaled_alpha_beta_gate _ _ _ _ vmin vmax vdivs true f i c e
              Hf Hc He Hc1 He1 Hcf Hef) as (Hinf' & Htau' & Hinv').
  split; [exists a, b; auto 10 |].
  split; [exists c, e; auto 10 |].
  split; [exact Hinv | exact Hinv'].
Qed.

Lemma C1_q10_invariance_witness :
  q10_invariant (gateX (make_channel_KDR_q 1))
                (gateX (make_channel_KDR_q 2)) 2 0.
Proof.
  refine (proj1 (proj2 (proj2 (C1_q10_invariance 2 0 _ _)))).
  - lra.
  - unfold vdivs. lia.
Defined.

(** C2: every gate stores one common (A, B) pair per grid point.  The gates
    given by alpha and beta (CaHVA, KDR) store [tableA = alpha] and
    [tableB = alpha + beta]; the gates given by tau and inf (NaF) store
    [tableA = inf/tau] and [tableB = 1/tau].  The export then gives beta as
    [tableB - tableA], tau as [1/tableB] and inf as [tableA/tableB]. *)
Theorem C2_common_encoding (i : nat) :
  (i <= vdivs)%nat →
  alpha_beta_encoding (CaHVA_alpha_m q10_mul) (CaHVA_beta_m q10_mul)
    (gateX make_channel_CaHVA) i ∧
  alpha_beta_encoding (CaHVA_alpha_h q10_mul) (CaHVA_beta_h q10_mul)
    (gateY make_channel_CaHVA) i ∧
  alpha_beta_encoding (KDR_alpha_m q10_mul) (KDR_beta_m q10_mul)
    (gateX make_channel_KDR) i ∧
  alpha_beta_encoding (KDR_alpha_h q10_mul) (KDR_beta_h q10_mul)
    (gateY make_channel_KDR) i ∧
  tau_inf_encoding (NaF_tau_m q10_mul) NaF_inf_m (gateX make_channel_NaF) i ∧
  tau_inf_encoding (NaF_tau_h q10_mul) NaF_inf_h (gateY make_channel_NaF) i.
Proof.
  intros Hi. pose proof q10_mul_pos as Hq.
  repeat split.
  - destruct (CaHVA_m_at q10_mul i Hi) as (a & b & Ha & Hb & Hpos).
    destruct (Hpos Hq) as [Hap Hbp].
    apply (alpha_beta_gate_encoding _ _ _ _ _ _ i a b Ha Hb). lra.
  - destruct (CaHVA_h_at q10_mul i Hi) as (a & b & Ha & Hb & Hsum).
    apply (alpha_beta_gate_encoding _ _ _ _ _ _ i a b Ha Hb). lra.
  - destruct (KDR_m_at q10_mul i Hi) as (a & b & Ha & Hb & _ & _ & Haq & Hbq).
    apply (alpha_beta_gate_encoding _ _ _ _ _ _ i _ _ Haq Hbq). nra.
  - destruct (KDR_h_at q10_mul i Hi) as (a & b & Ha & Hb & _ & _ & Haq & Hbq).
    apply (alpha_beta_gate_encoding _ _ _ _ _ _ i _ _ Haq Hbq). nra.
  - destruct (NaF_m_at i Hi) as (a & b & Ha & Hb & _ & _ & Hal & Hbe).
    destruct (NaF_tables_at 5e-5 q10_mul _ _ i a b ltac:(lra) Hq Ha Hb Hal Hbe)
      as (Ht & Htau & Hinf & _).
    apply (tau_inf_gate_encoding _ _ _ _ _ _ i _ _ Htau Hinf). lra.
  - destruct (NaF_h_at i Hi) as (a & b & Ha & Hb & Hal & Hbe).
    destruct (NaF_tables_at 2.25e-4 q10_mul _ _ i a b ltac:(lra) Hq Ha Hb
                Hal Hbe) as (Ht & Htau & Hinf & _).
    apply (tau_inf_gate_encoding _ _ _ _ _ _ i _ _ Htau Hinf). lra.
Qed.

Lemma C2_common_encoding_witness :
  alpha_beta_encoding (CaHVA_alpha_m q10_mul) (CaHVA_beta_m q10_mul)
    (gateX make_channel_CaHVA) 640.
Proof.
  refine (proj1 (C2_common_encoding 640 _)). unfold vdivs. lia.
Defined.

(** ** Facts used by the claims on the NaF and KA gates *)

Lemma exp_above_square (x : R) : 0 < x → (1 + x / 2) * (1 + x / 2) < exp x.
Proof.
  intros Hx. replace x with (x / 2 + x / 2) at 3 by field.
  rewrite exp_plus.
  assert (Hh : 1 + x / 2 < exp (x / 2)) by (apply exp_ineq1; lra).
  nra.
Qed.

Lemma Rmax_scale (q t floor : R) :
  0 < q → Rmax (t / q) (floor / q) = Rmax t floor / q.
Proof.
  intros Hq. unfold Rdiv.
  rewrite (Rmult_comm t), (Rmult_comm floor), (Rmult_comm (Rmax t floor)).
  apply RmaxRmult. left. apply Rinv_0_lt_compat, Hq.
Qed.

Lemma HH2_Q10_MUL_gt_1 : 1 < HH2.Q10_MUL.
Proof.
  unfold HH2.Q10_MUL, Rpower, HH2.Q10, HH2.TEMP_1, HH2.TEMP_0.
  apply exp_gt_1. apply Rmult_lt_0_compat; [lra |].
  rewrite <- ln_1. apply ln_increasing; lra.
Qed.

Lemma V_at_last : V_at 640 = 0.09.
Proof.
  unfold V_at, vmin, vmax, v_offset. rewrite INR_IZR_INZ.
  vm_compute Z.of_nat. lra.
Qed.

(** The m-gate of NaF at one index of granule_cell_hhchannel.py. *)
Lemma NaF_gate_tableB (floor q : R) (alpha beta : ndarray) (i : nat) (a b : R) :
  0 < floor → 0 < q → 0 < a → 0 < b →
  alpha !! i = Some (Some a) → beta !! i = Some (Some b) →
  let tau := NaF_tau_arr floor q alpha beta in
  let inf := NaF_inf_arr alpha beta in
  let g := mkHHGate (np_div inf tau) (np_rdiv 1 tau) vmin vmax vdivs true in
  tableB g !! i = Some (Some (q / Rmax (1 / (a + b)) floor)) ∧
  tableB g !! i
    = Some (Some (1 / Rmax (1 / (q * (a + b))) (floor / q))) ∧
  plot_inf g !! i = Some (Some (a / (a + b))).
Proof.
  intros Hf Hq Ha Hb Hal Hbe tau inf g.
  destruct (NaF_tables_at floor q alpha beta i a b Hf Hq Ha Hb Hal Hbe)
    as (Ht & Htau & Hinf & _ & HB).
  pose proof (Rmax_floor_pos (1 / (a + b)) floor Hf) as Hm.
  assert (E1 : tableB g !! i = Some (Some (q / Rmax (1 / (a + b)) floor))).
  { subst g tau. cbn [tableB]. rewrite HB. do 2 f_equal. field. split; lra. }
  split; [exact E1 |]. split.
  - rewrite E1. do 2 f_equal.
    replace (1 / (q * (a + b))) with (1 / (a + b) / q) by (field; split; lra).
    rewrite Rmax_scale by exact Hq. field. split; lra.
  - destruct (tau_inf_gate_encoding tau inf vmin vmax vdivs true i _ _
                Htau Hinf ltac:(lra)) as (t & x & Et & Ex & _ & _ & _ & _ & Hp).
    subst tau inf.
    rewrite Htau in Et. rewrite Hinf in Ex.
    injection Et as <-. injection Ex as <-. exact Hp.
Qed.



(** C4, as stated, fails in granule_cell_hhchannel.py: at the last grid
    point the floor of the m-gate is active and the stored [tableB] is
    [q10_mul / 5e-5], not [1 / max(tau_scaled, 5e-5) = 1 / 5e-5], where
    [tau_scaled = 1 / (q10_mul * (alpha + beta))]: the floor is applied
    before the division by [q10_mul]. *)
Lemma C4_counterexample :
  ∃ a b, NaF_alpha_m !! 640%nat = Some (Some a) ∧
         NaF_beta_m !! 640%nat = Some (Some b) ∧
         tableB (gateX make_channel_NaF) !! 640%nat
           = Some (Some (q10_mul / 5e-5)) ∧
         1 / Rmax (1 / (q10_mul * (a + b))) 5e-5 = 1 / 5e-5 ∧
         tableB (gateX make_channel_NaF) !! 640%nat
           ≠ Some (Some (1 / Rmax (1 / (q10_mul * (a + b))) 5e-5)).
Proof.
  assert (Hi : (640 <= vdivs)%nat) by (unfold vdivs; lia).
  destruct (NaF_m_at 640 Hi) as (a & b & Ha & Hb & Ea & Eb & Hal & Hbe).
  pose proof q10_mul_gt_1 as Hq.
  assert (Hbig : 20000 < a + b).
  { rewrite V_at_last in Ea.
    pose proof (exp_above_square (81 * (0.09 - (-39e-3))) ltac:(lra)) as Hx.
    lra. }
  assert (Hsmall : 1 / (a + b) < 5e-5).
  { apply (Rmult_lt_reg_r (a + b)); [lra |].
    replace (1 / (a + b) * (a + b)) with 1 by (field; lra). lra. }
  assert (Hsmall' : 1 / (q10_mul * (a + b)) < 5e-5).
  { apply (Rmult_lt_reg_r (q10_mul * (a + b))); [nra |].
    replace (1 / (q10_mul * (a + b)) * (q10_mul * (a + b))) with 1
      by (field; split; lra).
    nra. }
  destruct (NaF_gate_tableB 5e-5 q10_mul _ _ 640 a b ltac:(lra) ltac:(lra)
              Ha Hb Hal Hbe) as (HB & _ & _).
  assert (HB' : tableB (gateX make_channel_NaF) !! 640%nat
                = Some (Some (q10_mul / 5e-5))).
  { etransitivity; [exact HB |]. do 3 f_equal. apply Rmax_right. lra. }
  assert (Hclaim : 1 / Rmax (1 / (q10_mul * (a + b))) 5e-5 = 1 / 5e-5).
  { f_equal. apply Rmax_right. lra. }
  exists a, b. split; [exact Hal |]. split; [exact Hbe |].
  split; [exact HB' |]. split; [exact Hclaim |].
  rewrite HB', Hclaim. intros [= Heq]. lra.
Qed.

(** C4, amended: in granule_cell_hhchannel.py the floor ([5e-5] for the
    m-gate, [2.25e-4] for the h-gate) is applied to the unscaled time
    constant and the result is divided by [q10_mul], so
    [tableB = q10_mul / max(1/(alpha+beta), floor)
            = 1 / max(tau_scaled, floor / q10_mul)],
    and [tableA/tableB = alpha/(alpha+beta)] at every grid point, floor
    active or not.  In granule_cell_hhchannel2.py the rates carry [Q10_MUL]
    and the floor ([1e-5], [0.045e-3]) is applied after the scaling:
    [tau = max(1/(alpha+beta), floor)]. *)
Theorem C4_floor_and_scaling (i : nat) :
  (i <= vdivs)%nat →
  (∃ a b, NaF_alpha_m !! i = Some (Some a) ∧ NaF_beta_m !! i = Some (Some b) ∧
     tableB (gateX make_channel_NaF) !! i
       = Some (Some (q10_mul / Rmax (1 / (a + b)) 5e-5)) ∧
     tableB (gateX make_channel_NaF) !! i
       = Some (Some (1 / Rmax (1 / (q10_mul * (a + b))) (5e-5 / q10_mul))) ∧
     plot_inf (gateX make_channel_NaF) !! i = Some (Some (a / (a + b)))) ∧
  (∃ a b, NaF_alpha_h !! i = Some (Some a) ∧ NaF_beta_h !! i = Some (Some b) ∧
     tableB (gateY make_channel_NaF) !! i
       = Some (Some (q10_mul / Rmax (1 / (a + b)) 2.25e-4)) ∧
     tableB (gateY make_channel_NaF) !! i
       = Some (Some (1 / Rmax (1 / (q10_mul * (a + b))) (2.25e-4 / q10_mul))) ∧
     plot_inf (gateY make_channel_NaF) !! i = Some (Some (a / (a + b)))) ∧
  (∀ v, HH2.NaF_m_tauExpr v
        = Some (Rmax (1 / (HH2.NaF_m_alpha v + HH2.NaF_m_beta v)) 1e-5)) ∧
  (∀ v, HH2.NaF_h_tauExpr v
        = Some (Rmax (1 / (HH2.NaF_h_alpha v + HH2.NaF_h_beta v)) 0.045e-3)).
Proof.
  intros Hi. pose proof q10_mul_pos as Hq.
  split; [| split; [| split]].
  - destruct (NaF_m_at i Hi) as (a & b & Ha & Hb & _ & _ & Hal & Hbe).
    destruct (NaF_gate_tableB 5e-5 q10_mul _ _ i a b ltac:(lra) Hq Ha Hb
                Hal Hbe) as (H1 & H2 & H3).
    exists a, b. auto 10.
  - destruct (NaF_h_at i Hi) as (a & b & Ha & Hb & Hal & Hbe).
    destruct (NaF_gate_tableB 2.25e-4 q10_mul _ _ i a b ltac:(lra) Hq Ha Hb
                Hal Hbe) as (H1 & H2 & H3).
    exists a, b. auto 10.
  - intros v0. pose proof HH2_Q10_MUL_gt_1 as HQ.
    unfold HH2.NaF_m_tauExpr, HH2.NaF_tau_body.
    assert (Hm : 0 < HH2.NaF_m_alpha v0 + HH2.NaF_m_beta v0).
    { unfold HH2.NaF_m_alpha, HH2.NaF_m_beta. apply exp_sum_pos. lra. }
    rewrite decide_False by lra. rewrite fdiv_nonzero by lra. reflexivity.
  - intros v0. pose proof HH2_Q10_MUL_gt_1 as HQ.
    unfold HH2.NaF_h_tauExpr, HH2.NaF_tau_body.
    assert (Hh : 0 < HH2.NaF_h_alpha v0 + HH2.NaF_h_beta v0).
    { unfold HH2.NaF_h_alpha, HH2.NaF_h_beta. apply exp_sum_pos. lra. }
    rewrite decide_False by lra. rewrite fdiv_nonzero by lra. reflexivity.
Qed.

Lemma C4_floor_and_scaling_witness :
  ∃ a b, NaF_alpha_m !! 0%nat = Some (Some a) ∧
         NaF_beta_m !! 0%nat = Some (Some b) ∧
         tableB (gateX make_channel_NaF) !! 0%nat
           = Some (Some (q10_mul / Rmax (1 / (a + b)) 5e-5)) ∧
         tableB (gateX make_channel_NaF) !! 0%nat
           = Some (Some (1 / Rmax (1 / (q10_mul * (a + b))) (5e-5 / q10_mul))) ∧
         plot_inf (gateX make_channel_NaF) !! 0%nat = Some (Some (a / (a + b))).
Proof.
  refine (proj1 (C4_floor_and_scaling 0 _)). unfold vdivs. lia.
Defined.

(** C5, evaluated on the code: the tau expressions of the KA gates in
    granule_cell_hhchannel2.py multiply the time constant by [Q10_MUL]
    (which is above 1), where the claim has it divided; at [v = -0.0335]
    the unscaled m-gate tau is [0.577e-3] and the expression gives
    [Q10_MUL * 0.577e-3].  The NaF gates of granule_cell_hhchannel.py do
    divide their tau by [q10_mul]. *)
Theorem C5_KA_tau_multiplied :
  1 < HH2.Q10_MUL ∧
  (∀ v, HH2.KA_m_tauExpr v = Rmult HH2.Q10_MUL <$> HH2.KA_m_tau v) ∧
  (∀ v, HH2.KA_h_tauExpr v = Rmult HH2.Q10_MUL <$> HH2.KA_h_tau v) ∧
  HH2.KA_m_tau (-0.0335) = Some 0.577e-3 ∧
  HH2.KA_m_tauExpr (-0.0335) = Some (HH2.Q10_MUL * 0.577e-3) ∧
  HH2.KA_m_tauExpr (-0.0335) ≠ Some (0.577e-3 / HH2.Q10_MUL) ∧
  (∀ floor a b, 0 < a + b →
     NaF_tau_at floor q10_mul a b
       = Some (Rmax (1 / (a + b)) floor / q10_mul)).
Proof.
  pose proof HH2_Q10_MUL_gt_1 as HQ.
  assert (Htau : HH2.KA_m_tau (-0.0335) = Some 0.577e-3).
  { unfold HH2.KA_m_tau. rewrite fdiv_nonzero by lra. rewrite obind_Some.
    replace (- (-0.0335 - 10e-3 - (-43.5e-3)) / 0.0428) with 0 by lra.
    rewrite exp_0. f_equal. lra. }
  assert (Hexpr : HH2.KA_m_tauExpr (-0.0335) = Some (HH2.Q10_MUL * 0.577e-3)).
  { unfold HH2.KA_m_tauExpr. rewrite Htau. reflexivity. }
  split; [exact HQ |].
  split; [intros v0; unfold HH2.KA_m_tauExpr;
          destruct (HH2.KA_m_tau v0); reflexivity |].
  split; [intros v0; unfold HH2.KA_h_tauExpr;
          destruct (HH2.KA_h_tau v0); reflexivity |].
  split; [exact Htau |]. split; [exact Hexpr |]. split.
  - rewrite Hexpr. intros [= Heq].
    assert (Hlt : 0.577e-3 / HH2.Q10_MUL < 0.577e-3).
    { apply (Rmult_lt_reg_r HH2.Q10_MUL); [lra |].
      replace (0.577e-3 / HH2.Q10_MUL * HH2.Q10_MUL) with 0.577e-3
        by (field; lra).
      nra. }
    nra.
  - intros floor a b Hab. apply NaF_tau_val; [exact Hab |].
    pose proof q10_mul_pos. lra.
Qed.

(** C6, as stated, fails: the KDr m-gate as constructed takes its rates at
    the shifted voltage [v - 10e-3]; at [v = -0.038] its alpha is below 170
    and its beta above 170 in granule_cell.py, and in
    granule_cell_hhchannel.py the rates at [V = -0.038] carry [q10_mul]. *)
Lemma C6_counterexample :
  GC.KDr_m_alpha (-0.038) ≠ Some 170 ∧
  GC.KDr_m_beta (-0.038) ≠ Some 170 ∧
  KDR_alpha_m_at q10_mul (-0.038) ≠ Some 170.
Proof.
  split; [| split].
  - unfold GC.KDr_m_alpha. intros [= Heq].
    pose proof (exp_lt_1 (73 * (-0.038 - 10e-3 - (-38e-3))) ltac:(lra)). lra.
  - unfold GC.KDr_m_beta. intros [= Heq].
    pose proof (exp_gt_1 (-18 * (-0.038 - 10e-3 - (-38e-3))) ltac:(lra)). lra.
  - unfold KDR_alpha_m_at. intros [= Heq].
    replace (73 * (-0.038 - (-38e-3))) with 0 in Heq by lra.
    rewrite exp_0 in Heq. pose proof q10_mul_gt_1. lra.
Qed.

(** C6, amended: the KDr m-gate takes its rates at the shifted voltage
    [V = v - 10e-3]: [alpha = 170*exp(73*(V + 0.038))] and
    [beta = 170*exp(-18*(V + 0.038))].  In granule_cell.py, at [v = -0.028]
    (that is [V = -0.038]) [alpha = beta = 170], hence [xinf = 0.5] and
    [tau = 1/340].  In granule_cell_hhchannel.py the two rates are tabulated
    with the factor [q10_mul] at the grid voltages [V[i]], none of which is
    [-0.038]: no table entry has [alpha = beta]; the stored steady state is
    below 0.5 up to index 312 and above 0.5 from index 313 on. *)
Theorem C6_KDr_midpoint (i : nat) :
  (i <= vdivs)%nat →
  GC.KDr_m_alpha (-0.028) = Some 170 ∧
  GC.KDr_m_beta (-0.028) = Some 170 ∧
  RateTable.xinf (RateTable.A_of 170 170) (RateTable.B_of 170 170)
    = Some 0.5 ∧
  RateTable.tau (RateTable.B_of 170 170) = Some (1 / 340) ∧
  V_at i ≠ -0.038 ∧
  ∃ a b x,
    a = q10_mul * 170 * exp (73 * (V_at i - (-38e-3))) ∧
    b = q10_mul * 170 * exp (-18 * (V_at i - (-38e-3))) ∧
    tableA (gateX make_channel_KDR) !! i = Some (Some a) ∧
    tableB (gateX make_channel_KDR) !! i = Some (Some (a + b)) ∧
    plot_inf (gateX make_channel_KDR) !! i = Some (Some x) ∧
    ((i <= 312)%nat → a < b ∧ x < 0.5) ∧
    ((313 <= i)%nat → b < a ∧ 0.5 < x).
Proof.
  intros Hi. pose proof q10_mul_pos as Hq.
  split; [| split; [| split; [| split; [| split]]]].
  - unfold GC.KDr_m_alpha.
    replace (73 * (-0.028 - 10e-3 - (-38e-3))) with 0 by lra.
    rewrite exp_0. f_equal. lra.
  - unfold GC.KDr_m_beta.
    replace (-18 * (-0.028 - 10e-3 - (-38e-3))) with 0 by lra.
    rewrite exp_0. f_equal. lra.
  - unfold RateTable.xinf, RateTable.A_of, RateTable.B_of.
    rewrite fdiv_nonzero by lra. f_equal. lra.
  - unfold RateTable.tau, RateTable.B_of.
    rewrite fdiv_nonzero by lra. f_equal. lra.
  - unfold V_at, vmin, vmax, v_offset. rewrite INR_IZR_INZ. intros Heq.
    assert (Hz : IZR (Z.of_nat i * 100) = IZR 31232).
    { rewrite mult_IZR. lra. }
    apply eq_IZR in Hz. lia.
  - set (a := q10_mul * 170 * exp (73 * (V_at i - (-38e-3)))).
    set (b := q10_mul * 170 * exp (-18 * (V_at i - (-38e-3)))).
    assert (Hal : KDR_alpha_m q10_mul !! i = Some (Some a)).
    { unfold KDR_alpha_m. rewrite on_grid by exact Hi. reflexivity. }
    assert (Hbe : KDR_beta_m q10_mul !! i = Some (Some b)).
    { unfold KDR_beta_m. rewrite on_grid by exact Hi. reflexivity. }
    pose proof (exp_pos (73 * (V_at i - (-38e-3)))) as Hea.
    pose proof (exp_pos (-18 * (V_at i - (-38e-3)))) as Heb.
    assert (Ha : 0 < a) by (unfold a; nra).
    assert (Hb : 0 < b) by (unfold b; nra).
    pose proof (np_add_lookup _ _ i a b Hal Hbe) as HB.
    assert (Hinf : plot_inf (gateX make_channel_KDR) !! i
                   = Some (Some (a / (a + b)))).
    { unfold plot_inf. apply (np_div_lookup _ _ i a (a + b) Hal HB). lra. }
    assert (Hhalf : a / (a + b) * (a + b) = a) by (field; lra).
    exists a, b, (a / (a + b)).
    split; [reflexivity |]. split; [reflexivity |].
    split; [exact Hal |]. split; [exact HB |]. split; [exact Hinf |]. split.
    + intros Hlow.
      assert (Hn : INR i <= 312).
      { rewrite INR_IZR_INZ. apply IZR_le. lia. }
      assert (HV : V_at i < -0.038).
      { unfold V_at, vmin, vmax, v_offset. lra. }
      assert (Hexp : exp (73 * (V_at i - (-38e-3)))
                     < exp (-18 * (V_at i - (-38e-3))))
        by (apply exp_increasing; lra).
      assert (Hab : a < b) by (unfold a, b; nra).
      split; [exact Hab | nra].
    + intros Hhigh.
      assert (Hn : 313 <= INR i).
      { rewrite INR_IZR_INZ. apply IZR_le. lia. }
      assert (HV : -0.038 < V_at i).
      { unfold V_at, vmin, vmax, v_offset. lra. }
      assert (Hexp : exp (-18 * (V_at i - (-38e-3)))
                     < exp (73 * (V_at i - (-38e-3))))
        by (apply exp_increasing; lra).
      assert (Hab : b < a) by (unfold a, b; nra).
      split; [exact Hab | nra].
Qed.

Lemma C6_KDr_midpoint_witness : V_at 312 ≠ -0.038.
Proof.
  refine (proj1 (proj2 (proj2 (proj2 (proj2 (C6_KDr_midpoint 312 _)))))).
  unfold vdivs. lia.
Defined.

(** ** The exponential update *)

Module IntegratorFacts.
Import Integrator.

Section FixedVoltage.
Context (dt A B : R).
Hypothesis Hdt : 0 < dt.
Hypothesis HB : 0 < B.

Let r := exp (- dt * B).
Let xinf := A / B.

Lemma decay_range : 0 < r < 1.
Proof.
  unfold r. split; [apply exp_pos |]. apply exp_lt_1. nra.
Qed.

Lemma gate_step_relaxing (x : R) :
  gate_step dt A B x = xinf + (x - xinf) * r.
Proof. unfold gate_step. rewrite decide_False by lra. reflexivity. Qed.

Lemma gate_run_closed_form (n : nat) (x : R) :
  gate_run n dt A B x = xinf + (x - xinf) * r ^ n.
Proof.
  induction n as [|n IH]; cbn [gate_run pow].
  - ring.
  - rewrite gate_step_relaxing, IH. ring.
Qed.

Lemma decay_pow_range (n : nat) : 0 < r ^ n <= 1.
Proof.
  pose proof decay_range as [Hr0 Hr1]. split.
  - apply pow_lt, Hr0.
  - induction n as [|n IH]; cbn [pow]; [lra |].
    pose proof (pow_lt r n Hr0). nra.
Qed.

Lemma gate_run_bounded (n : nat) (x : R) :
  0 <= x <= 1 → 0 <= xinf <= 1 → 0 <= gate_run n dt A B x <= 1.
Proof.
  intros Hx Hinf. rewrite gate_run_closed_form.
  pose proof (decay_pow_range n) as [Hp0 Hp1].
  replace (xinf + (x - xinf) * r ^ n)
    with (xinf * (1 - r ^ n) + x * r ^ n) by ring.
  split; nra.
Qed.

Lemma gate_run_rising (n : nat) (x : R) :
  x <= xinf →
  gate_run n dt A B x <= gate_run (S n) dt A B x
  ∧ gate_run (S n) dt A B x <= xinf.
Proof.
  intros Hx. rewrite !gate_run_closed_form. cbn [pow].
  pose proof decay_range as [Hr0 Hr1].
  pose proof (decay_pow_range n) as [Hp0 Hp1].
  assert (Hd : (x - xinf) * r ^ n <= 0) by nra.
  assert (Hrp : 0 < r * r ^ n) by nra.
  split; nra.
Qed.

Lemma gate_run_falling (n : nat) (x : R) :
  xinf <= x →
  xinf <= gate_run (S n) dt A B x
  ∧ gate_run (S n) dt A B x <= gate_run n dt A B x.
Proof.
  intros Hx. rewrite !gate_run_closed_form. cbn [pow].
  pose proof decay_range as [Hr0 Hr1].
  pose proof (decay_pow_range n) as [Hp0 Hp1].
  assert (Hd : 0 <= (x - xinf) * r ^ n) by nra.
  assert (Hrp : 0 < r * r ^ n) by nra.
  split; nra.
Qed.

Lemma gate_run_converges (x : R) :
  Un_cv (λ n, gate_run n dt A B x) xinf.
Proof.
  intros eps Heps. pose proof decay_range as [Hr0 Hr1].
  set (c := Rabs (x - xinf) + 1).
  assert (Hc : 0 < c) by (unfold c; pose proof (Rabs_pos (x - xinf)); lra).
  assert (Hsmall : 0 < eps / c) by (apply Rdiv_lt_0_compat; lra).
  destruct (pow_lt_1_zero r) with (y := eps / c) as [N HN].
  { rewrite Rabs_pos_eq; lra. }
  { exact Hsmall. }
  exists N. intros n Hn. unfold R_dist.
  rewrite gate_run_closed_form.
  replace (xinf + (x - xinf) * r ^ n - xinf) with ((x - xinf) * r ^ n) by ring.
  rewrite Rabs_mult.
  specialize (HN n Hn).
  pose proof (Rabs_pos (r ^ n)) as Hp. pose proof (Rabs_pos (x - xinf)) as Hq.
  assert (Hle : Rabs (x - xinf) * Rabs (r ^ n) <= c * Rabs (r ^ n)).
  { unfold c. nra. }
  assert (Hlt : c * Rabs (r ^ n) < c * (eps / c)).
  { apply Rmult_lt_compat_l; assumption. }
  replace (c * (eps / c)) with eps in Hlt by (field; lra).
  lra.
Qed.
End FixedVoltage.

Lemma gate_step_held (dt A x : R) : gate_step dt A 0 x = x.
Proof. unfold gate_step. rewrite decide_True by reflexivity. reflexivity. Qed.

Lemma gate_run_held (n : nat) (dt A x : R) : gate_run n dt A 0 x = x.
Proof.
  induction n as [|n IH]; cbn [gate_run]; [reflexivity |].
  rewrite IH. apply gate_step_held.
Qed.

End IntegratorFacts.

(** C7: for [dt > 0], [B >= 0], [x] in [0,1] and [xinf = A/B] in [0,1], one
    exponential update and every number of repeated updates stay in [0,1];
    for [B = 0] the state is held; for [B > 0] the iterates move
    monotonically towards [xinf] (rising when they start below it, falling
    when they start above it) and converge to it. *)
Theorem C7_exponential_update (dt A B x : R) :
  0 < dt → 0 <= B → 0 <= x <= 1 → 0 <= A / B <= 1 →
  0 <= Integrator.gate_step dt A B x <= 1 ∧
  (∀ n, 0 <= Integrator.gate_run n dt A B x <= 1) ∧
  (B = 0 → Integrator.gate_step dt A B x = x) ∧
  (0 < B →
     Integrator.gate_step dt A B x
       = A / B + (x - A / B) * exp (- dt * B) ∧
     (x <= A / B → ∀ n,
        Integrator.gate_run n dt A B x <= Integrator.gate_run (S n) dt A B x
        ∧ Integrator.gate_run (S n) dt A B x <= A / B) ∧
     (A / B <= x → ∀ n,
        A / B <= Integrator.gate_run (S n) dt A B x
        ∧ Integrator.gate_run (S n) dt A B x <= Integrator.gate_run n dt A B x) ∧
     Un_cv (λ n, Integrator.gate_run n dt A B x) (A / B)).
Proof.
  intros Hdt HB Hx Hinf.
  assert (Hrun : ∀ n, 0 <= Integrator.gate_run n dt A B x <= 1).
  { intros n. destruct (Req_dec_T B 0) as [-> | Hne].
    - rewrite IntegratorFacts.gate_run_held. exact Hx.
    - apply IntegratorFacts.gate_run_bounded; [exact Hdt | lra | exact Hx |
                                               exact Hinf]. }
  split; [exact (Hrun 1%nat) |]. split; [exact Hrun |]. split.
  - intros ->. apply IntegratorFacts.gate_step_held.
  - intros Hpos. split; [| split; [| split]].
    + apply IntegratorFacts.gate_step_relaxing. exact Hpos.
    + intros Hlow n. apply IntegratorFacts.gate_run_rising; assumption.
    + intros Hhigh n. apply IntegratorFacts.gate_run_falling; assumption.
    + apply IntegratorFacts.gate_run_converges; assumption.
Qed.

Lemma C7_exponential_update_witness :
  0 <= Integrator.gate_step 1 1 2 0 <= 1.
Proof.
  refine (proj1 (C7_exponential_update 1 1 2 0 _ _ _ _)); lra.
Defined.

(** ** The cell loader *)

Module CellsFacts.
Import Cells.
#[local] Open Scope string_scope.

Lemma bind_Ok {A B : Type} (m : M A) (f : A → M B) (w w' : World) (a : A) :
  m w = (Ok a, w') → (m ≫= f) w = f a w'.
Proof. intros Hm. unfold mbind, M_bind. rewrite Hm. reflexivity. Qed.

(** Without a key ['depth'] the function returns at its first guard. *)
Lemma assign_depths_no_depth (proto : Elem) (spec : gmap string string)
    (protodir : string) (w : World) :
  spec !! "depth" = None → assign_depths proto spec protodir w = (Ok tt, w).
Proof. intros Hd. unfold assign_depths. rewrite Hd. reflexivity. Qed.

Lemma cell_spec_no_depth :
  map_Forall (λ _ (spec : gmap string string), spec !! "depth" = None)
             cell_spec.
Proof. apply (bool_decide_unpack _). vm_compute. exact I. Qed.

End CellsFacts.

(** C9: [get_cell] returns the prototype that [get_proto] finds for [name]
    under [parent]; when there is none it initializes the channels, loads
    the model file named by the spec, assigns depths, and returns [None],
    not the prototype it has just loaded. *)
Theorem C9_get_cell (E : Cells.Externals) (name : string)
    (spec : gmap string string) (parent protodir : string)
    (w w1 : Cells.World) (found : option Cells.Elem) :
  Cells.get_proto name parent w = (Cells.Ok found, w1) →
  match found with
  | Some c =>
      Cells.get_cell name spec parent protodir w = (Cells.Ok (Some c), w1)
  | None =>
      ∀ (w2 w3 : Cells.World) (file : string) (proto : Cells.Elem),
        Cells.init_channels w1 = (Cells.Ok tt, w2) →
        spec !! "proto"%string = Some file →
        Cells.loadModel (Cells.path_join protodir file)
                        (parent ++ "/" ++ name)%string w2
          = (Cells.Ok proto, w3) →
        Cells.get_cell name spec parent protodir w
          = (Cells.assign_depths proto spec protodir ;; mret None) w3 ∧
        (∀ w4, Cells.assign_depths proto spec protodir w3
                 = (Cells.Ok tt, w4) →
               Cells.get_cell name spec parent protodir w
                 = (Cells.Ok None, w4)) ∧
        (spec !! "depth"%string = None →
           Cells.get_cell name spec parent protodir w = (Cells.Ok None, w3))
  end.
Proof.
  intros Hproto. destruct found as [c |].
  - unfold Cells.get_cell. rewrite (CellsFacts.bind_Ok _ _ _ _ _ Hproto).
    reflexivity.
  - intros w2 w3 file proto Hinit Hfile Hload.
    assert (Hrun : Cells.get_cell name spec parent protodir w
                   = (Cells.assign_depths proto spec protodir ;; mret None) w3).
    { unfold Cells.get_cell. rewrite (CellsFacts.bind_Ok _ _ _ _ _ Hproto).
      rewrite (CellsFacts.bind_Ok _ _ _ _ _ Hinit).
      unfold Cells.getitem. rewrite Hfile.
      rewrite (CellsFacts.bind_Ok (mret file) _ w2 w2 file eq_refl).
      rewrite (CellsFacts.bind_Ok _ _ _ _ _ Hload). reflexivity. }
    split; [exact Hrun |]. split.
    + intros w4 Hassign. rewrite Hrun.
      rewrite (CellsFacts.bind_Ok _ _ _ _ _ Hassign). reflexivity.
    + intros Hdepth. rewrite Hrun.
      rewrite (CellsFacts.bind_Ok _ _ _ _ _
                 (CellsFacts.assign_depths_no_depth proto spec protodir w3
                    Hdepth)).
      reflexivity.
Qed.

Lemma C9_get_cell_witness :
  @Cells.get_cell Cells.recording_externals "TCR"
    (list_to_map [("proto", "TCR.p"); ("levels", "TCR.levels")]%string)
    "/library" "proto" Cells.empty_world
  = (Cells.Ok None,
     Cells.mkWorld ∅ (<["/library/TCR"%string := ∅]> ∅)
       [Cells.EvInitChannels;
        Cells.EvLoadModel "proto/TCR.p" "/library/TCR"]).
Proof.
  refine (proj2 (proj2
    (C9_get_cell Cells.recording_externals "TCR"
       (list_to_map [("proto", "TCR.p"); ("levels", "TCR.levels")]%string)
       "/library" "proto" Cells.empty_world Cells.empty_world None
       _ _ _ "TCR.p"%string (Cells.mkElem "/library/TCR") _ _ _)) _).
  - reflexivity.
  - reflexivity.
  - reflexivity.
  - reflexivity.
  - reflexivity.
Defined.

(** C10: for every entry of [cell_spec], [assign_depths] changes nothing
    and reads no file: the entry has no key ['depth'] (the entries use
    ['depths'] and ['levels']), so the function returns at its first guard
    with the world as it was. *)
Theorem C10_assign_depths_returns_early (name : string)
    (spec : gmap string string) :
  Cells.cell_spec !! name = Some spec →
  spec !! "depth"%string = None ∧
  ∀ (proto : Cells.Elem) (protodir : string) (w : Cells.World),
    Cells.assign_depths proto spec protodir w = (Cells.Ok tt, w).
Proof.
  intros Hspec.
  pose proof (CellsFacts.cell_spec_no_depth name spec Hspec) as Hd.
  split; [exact Hd |].
  intros proto protodir w.
  apply CellsFacts.assign_depths_no_depth, Hd.
Qed.

Lemma C10_assign_depths_returns_early_witness :
  Cells.assign_depths (Cells.mkElem "/library/SupPyrFRB")
    (list_to_map [("proto", "SupPyrFRB.p"); ("depths", "SupPyrFRB.depths");
                  ("levels", "SupPyrFRB.levels")]%string)
    "proto" Cells.empty_world
  = (Cells.Ok tt, Cells.empty_world).
Proof.
  refine (proj2 (C10_assign_depths_returns_early "SupPyrFRB" _ _)
            (Cells.mkElem "/library/SupPyrFRB") "proto"%string
            Cells.empty_world).
  vm_compute. reflexivity.
Defined.

(** * Further properties of the modelled code *)

(** ** The export of a gate *)

Section ExportColumns.
Context (g : HHGate) (i : nat) (A B : R).
Hypothesis HA : tableA g !! i = Some (Some A).
Hypothesis HB : tableB g !! i = Some (Some B).

Lemma plot_beta_lookup : plot_beta g !! i = Some (Some (B - A)).
Proof. unfold plot_beta. exact (np_sub_lookup _ _ i B A HB HA). Qed.

Lemma plot_tau_lookup : B ≠ 0 → plot_tau g !! i = Some (Some (1 / B)).
Proof. intros Hne. unfold plot_tau. exact (np_rdiv_lookup _ i B HB 1 Hne). Qed.

Lemma plot_inf_lookup : B ≠ 0 → plot_inf g !! i = Some (Some (A / B)).
Proof. intros Hne. unfold plot_inf. exact (np_div_lookup _ _ i A B HA HB Hne). Qed.

End ExportColumns.

(** X1: the columns written by [plot_hhgate] determine the tables: where
    [tableB] is finite and not zero, [alpha + beta] gives back [tableB],
    [inf / tau] gives back [tableA] and [1 / tau] gives back [tableB]. *)
Theorem export_round_trip (g : HHGate) (i : nat) (A B : R) :
  tableA g !! i = Some (Some A) → tableB g !! i = Some (Some B) → B ≠ 0 →
  np_add (plot_alpha g) (plot_beta g) !! i = Some (Some B) ∧
  np_div (plot_inf g) (plot_tau g) !! i = Some (Some A) ∧
  np_rdiv 1 (plot_tau g) !! i = Some (Some B).
Proof.
  intros HA HB Hne.
  pose proof (plot_beta_lookup g i A B HA HB) as Hbeta.
  pose proof (plot_tau_lookup g i B HB Hne) as Htau.
  pose proof (plot_inf_lookup g i A B HA HB Hne) as Hinf.
  assert (Hinv : 1 / B ≠ 0).
  { unfold Rdiv. rewrite Rmult_1_l. apply Rinv_neq_0_compat, Hne. }
  split; [| split].
  - rewrite (np_add_lookup (plot_alpha g) (plot_beta g) i A (B - A) HA Hbeta).
    do 2 f_equal. ring.
  - rewrite (np_div_lookup _ _ i (A / B) (1 / B) Hinf Htau Hinv).
    do 2 f_equal. field. exact Hne.
  - rewrite (np_rdiv_lookup _ i (1 / B) Htau 1 Hinv).
    do 2 f_equal. field. exact Hne.
Qed.

Lemma export_round_trip_witness :
  np_div (plot_inf (mkHHGate [Some 1] [Some 4] 0 1 0 true))
         (plot_tau (mkHHGate [Some 1] [Some 4] 0 1 0 true)) !! 0%nat
  = Some (Some 1).
Proof.
  refine (proj1 (proj2 (export_round_trip
            (mkHHGate [Some 1] [Some 4] 0 1 0 true) 0 1 4 _ _ _))).
  - reflexivity.
  - reflexivity.
  - lra.
Defined.

(** ** Ranges of the tabulated rates *)

Lemma ratio_in_unit (A B : R) : 0 < A → A <= B → 0 < A / B <= 1.
Proof.
  intros HA HAB. assert (HB : 0 < B) by lra. split.
  - apply Rdiv_lt_0_compat; assumption.
  - apply (Rmult_le_reg_r B); [exact HB |].
    replace (A / B * B) with A by (field; lra). lra.
Qed.

Lemma rates_in_range_intro (g : HHGate) (i : nat) (A B : R) :
  tableA g !! i = Some (Some A) → tableB g !! i = Some (Some B) →
  0 < A → A <= B → rates_in_range g i.
Proof.
  intros HA HB Hpos Hle. assert (HB0 : B ≠ 0) by lra.
  exists A, B, (A / B), (1 / B).
  split; [exact HA |]. split; [exact HB |]. split; [lra |].
  split; [exact (plot_inf_lookup g i A B HA HB HB0) |].
  split; [apply ratio_in_unit; assumption |].
  split; [exact (plot_tau_lookup g i B HB HB0) |].
  apply Rdiv_lt_0_compat; lra.
Qed.

Lemma alpha_beta_gate_in_range (alpha beta : ndarray) (mn mx : R) (d : nat)
    (u : bool) (i : nat) (a b : R) :
  alpha !! i = Some (Some a) → beta !! i = Some (Some b) → 0 < a → 0 <= b →
  rates_in_range (mkHHGate alpha (np_add alpha beta) mn mx d u) i.
Proof.
  intros Ha Hb Hpa Hpb.
  apply (rates_in_range_intro _ i a (a + b)); [exact Ha | | exact Hpa | lra].
  exact (np_add_lookup alpha beta i a b Ha Hb).
Qed.

(** The two rates of the CaHVA h-gate at one voltage. *)
Lemma CaHVA_h_values (q x : R) :
  0 < q →
  ∃ a b, CaHVA_alpha_h_at q x = Some a ∧ CaHVA_beta_h_at q x = Some b ∧
         0 < a ∧ 0 <= b ∧ a + b = 5 * q ∧ (x < -0.060 → a = 5 * q).
Proof.
  intros Hq. unfold CaHVA_alpha_h_at, CaHVA_beta_h_at. case_decide as Hx.
  - exists (5.0 * q), 0.0. repeat split; try reflexivity; lra.
  - eexists _, _. split; [reflexivity |]. split; [reflexivity |].
    replace (-50 * (x - (-0.060))) with (-50 * (x - (-0.06))) by lra.
    pose proof (exp_pos (-50 * (x - (-0.06)))) as Hp.
    assert (Hle : exp (-50 * (x - (-0.06))) <= 1).
    { destruct (Req_dec_T x (-0.06)) as [-> | Hne].
      - replace (-50 * (-0.06 - (-0.06))) with 0 by lra. rewrite exp_0. lra.
      - left. apply exp_lt_1. lra. }
    split; [nra |]. split; [nra |]. split; [lra | intros Hlt; lra].
Qed.

Lemma CaHVA_h_gate_at (i : nat) :
  (i <= vdivs)%nat →
  ∃ a b, tableA (gateY make_channel_CaHVA) !! i = Some (Some a) ∧
         CaHVA_beta_h q10_mul !! i = Some (Some b) ∧
         tableB (gateY make_channel_CaHVA) !! i = Some (Some (5 * q10_mul)) ∧
         0 < a ∧ 0 <= b ∧ a + b = 5 * q10_mul ∧
         (V_at i < -0.060 → a = 5 * q10_mul).
Proof.
  intros Hi.
  destruct (CaHVA_h_values q10_mul (V_at i) q10_mul_pos)
    as (a & b & Ha & Hb & Hpa & Hpb & Hsum & Hlow).
  assert (HA : CaHVA_alpha_h q10_mul !! i = Some (Some a)).
  { unfold CaHVA_alpha_h. rewrite on_grid by exact Hi. rewrite Ha. reflexivity. }
  assert (HB : CaHVA_beta_h q10_mul !! i = Some (Some b)).
  { unfold CaHVA_beta_h. rewrite on_grid by exact Hi. rewrite Hb. reflexivity. }
  exists a, b. split; [exact HA |]. split; [exact HB |]. split.
  - cbn [tableB gateY make_channel_CaHVA make_channel_CaHVA_q].
    rewrite (np_add_lookup _ _ i a b HA HB). do 2 f_equal. exact Hsum.
  - auto.
Qed.

(** X3: at every grid index, both tables of every gate of CaHVA, KDR and
    NaF are finite with [0 < tableA <= tableB], so the steady state
    [tableA/tableB] lies in (0, 1] and the time constant [1/tableB] is
    positive. *)
Theorem tables_in_range (i : nat) :
  (i <= vdivs)%nat →
  rates_in_range (gateX make_channel_CaHVA) i ∧
  rates_in_range (gateY make_channel_CaHVA) i ∧
  rates_in_range (gateX make_channel_KDR) i ∧
  rates_in_range (gateY make_channel_KDR) i ∧
  rates_in_range (gateX make_channel_NaF) i ∧
  rates_in_range (gateY make_channel_NaF) i.
Proof.
  intros Hi. pose proof q10_mul_pos as Hq.
  split; [| split; [| split; [| split; [| split]]]].
  - destruct (CaHVA_m_at q10_mul i Hi) as (a & b & Ha & Hb & Hpos).
    destruct (Hpos Hq) as [Hpa Hpb].
    apply (alpha_beta_gate_in_range _ _ _ _ _ _ i a b Ha Hb); lra.
  - destruct (CaHVA_h_gate_at i Hi)
      as (a & b & HA & Hb & HB & Hpa & Hpb & Hsum & _).
    apply (rates_in_range_intro _ i a (5 * q10_mul) HA HB); lra.
  - destruct (KDR_m_at q10_mul i Hi) as (a & b & Ha & Hb & _ & _ & Haq & Hbq).
    apply (alpha_beta_gate_in_range _ _ _ _ _ _ i _ _ Haq Hbq); nra.
  - destruct (KDR_h_at q10_mul i Hi) as (a & b & Ha & Hb & _ & _ & Haq & Hbq).
    apply (alpha_beta_gate_in_range _ _ _ _ _ _ i _ _ Haq Hbq); nra.
  - destruct (NaF_m_at i Hi) as (a & b & Ha & Hb & _ & _ & Hal & Hbe).
    destruct (NaF_tables_at 5e-5 q10_mul _ _ i a b ltac:(lra) Hq Ha Hb Hal Hbe)
      as (Ht & _ & _ & HA & HB).
    eapply rates_in_range_intro; [exact HA | exact HB | |].
    + apply Rdiv_lt_0_compat; [| exact Ht]. apply Rdiv_lt_0_compat; lra.
    + pose proof (ratio_in_unit a (a + b) Ha ltac:(lra)) as [_ Hle].
      unfold Rdiv at 1 3. apply Rmult_le_compat_r; [| exact Hle].
      left. apply Rinv_0_lt_compat, Ht.
  - destruct (NaF_h_at i Hi) as (a & b & Ha & Hb & Hal & Hbe).
    destruct (NaF_tables_at 2.25e-4 q10_mul _ _ i a b ltac:(lra) Hq Ha Hb
                Hal Hbe) as (Ht & _ & _ & HA & HB).
    eapply rates_in_range_intro; [exact HA | exact HB | |].
    + apply Rdiv_lt_0_compat; [| exact Ht]. apply Rdiv_lt_0_compat; lra.
    + pose proof (ratio_in_unit a (a + b) Ha ltac:(lra)) as [_ Hle].
      unfold Rdiv at 1 3. apply Rmult_le_compat_r; [| exact Hle].
      left. apply Rinv_0_lt_compat, Ht.
Qed.

Lemma tables_in_range_witness : rates_in_range (gateX make_channel_NaF) 320.
Proof.
  refine (proj1 (proj2 (proj2 (proj2 (proj2 (tables_in_range 320 _)))))).
  unfold vdivs. lia.
Defined.

(** X4: the CaHVA h-gate has the same relaxation rate [5 * q10_mul] at
    every grid voltage, and below the cut [V < -0.060] its steady state is
    exactly 1. *)
Theorem CaHVA_h_constant_rate (i : nat) :
  (i <= vdivs)%nat →
  tableB (gateY make_channel_CaHVA) !! i = Some (Some (5 * q10_mul)) ∧
  plot_tau (gateY make_channel_CaHVA) !! i = Some (Some (1 / (5 * q10_mul))) ∧
  (V_at i < -0.060 →
     plot_inf (gateY make_channel_CaHVA) !! i = Some (Some 1)).
Proof.
  intros Hi. pose proof q10_mul_pos as Hq.
  destruct (CaHVA_h_gate_at i Hi)
    as (a & b & HA & Hb & HB & Hpa & Hpb & Hsum & Hlow).
  assert (Hne : 5 * q10_mul ≠ 0) by lra.
  split; [exact HB |]. split.
  - exact (plot_tau_lookup _ i _ HB Hne).
  - intros Hlt. rewrite (plot_inf_lookup _ i a _ HA HB Hne).
    do 2 f_equal. rewrite (Hlow Hlt). field. lra.
Qed.

Lemma CaHVA_h_constant_rate_witness :
  tableB (gateY make_channel_CaHVA) !! 0%nat = Some (Some (5 * q10_mul)).
Proof.
  refine (proj1 (CaHVA_h_constant_rate 0 _)). unfold vdivs. lia.
Defined.

(** X5: the floor on the NaF time constants caps the stored relaxation
    rate: [tableB <= q10_mul / floor], that is [tau >= floor / q10_mul],
    with floor [5e-5] for the m-gate and [2.25e-4] for the h-gate. *)
Theorem NaF_rate_capped (i : nat) :
  (i <= vdivs)%nat →
  (∃ B t, tableB (gateX make_channel_NaF) !! i = Some (Some B) ∧
          B <= q10_mul / 5e-5 ∧
          plot_tau (gateX make_channel_NaF) !! i = Some (Some t) ∧
          5e-5 / q10_mul <= t) ∧
  (∃ B t, tableB (gateY make_channel_NaF) !! i = Some (Some B) ∧
          B <= q10_mul / 2.25e-4 ∧
          plot_tau (gateY make_channel_NaF) !! i = Some (Some t) ∧
          2.25e-4 / q10_mul <= t).
Proof.
  intros Hi. pose proof q10_mul_pos as Hq.
  assert (Hcap : ∀ (g : HHGate) (floor a b : R),
            0 < floor → 0 < a → 0 < b →
            tableB g !! i = Some (Some (q10_mul / Rmax (1 / (a + b)) floor)) →
            ∃ B t, tableB g !! i = Some (Some B) ∧ B <= q10_mul / floor ∧
                   plot_tau g !! i = Some (Some t) ∧ floor / q10_mul <= t).
  { intros g floor a b Hf Ha Hb HB.
    set (M := Rmax (1 / (a + b)) floor) in *.
    assert (HM : floor <= M) by apply Rmax_r.
    assert (HM0 : 0 < M) by lra.
    assert (Hne : q10_mul / M ≠ 0).
    { apply Rgt_not_eq. apply Rdiv_lt_0_compat; assumption. }
    exists (q10_mul / M), (1 / (q10_mul / M)).
    split; [exact HB |]. split; [| split].
    - unfold Rdiv. apply Rmult_le_compat_l; [lra |].
      apply Rinv_le_contravar; assumption.
    - exact (plot_tau_lookup g i _ HB Hne).
    - replace (1 / (q10_mul / M)) with (M / q10_mul) by (field; split; lra).
      unfold Rdiv. apply Rmult_le_compat_r; [| exact HM].
      left. apply Rinv_0_lt_compat, Hq. }
  split.
  - destruct (NaF_m_at i Hi) as (a & b & Ha & Hb & _ & _ & Hal & Hbe).
    destruct (NaF_gate_tableB 5e-5 q10_mul _ _ i a b ltac:(lra) Hq Ha Hb
                Hal Hbe) as (HB & _ & _).
    exact (Hcap _ 5e-5 a b ltac:(lra) Ha Hb HB).
  - destruct (NaF_h_at i Hi) as (a & b & Ha & Hb & Hal & Hbe).
    destruct (NaF_gate_tableB 2.25e-4 q10_mul _ _ i a b ltac:(lra) Hq Ha Hb
                Hal Hbe) as (HB & _ & _).
    exact (Hcap _ 2.25e-4 a b ltac:(lra) Ha Hb HB).
Qed.

Lemma NaF_rate_capped_witness :
  ∃ B t, tableB (gateX make_channel_NaF) !! 640%nat = Some (Some B) ∧
         B <= q10_mul / 5e-5 ∧
         plot_tau (gateX make_channel_NaF) !! 640%nat = Some (Some t) ∧
         5e-5 / q10_mul <= t.
Proof.
  refine (proj1 (NaF_rate_capped 640 _)). unfold vdivs. lia.
Defined.

(** ** Steady states along the grid *)

Lemma V_at_increasing (i j : nat) : (i < j)%nat → V_at i < V_at j.
Proof.
  intros Hij. apply lt_INR in Hij.
  unfold V_at, vmin, vmax, v_offset. lra.
Qed.

(** [a/(a+b)] grows when [a] grows and [b] shrinks. *)
Lemma ratio_increasing (a1 b1 a2 b2 : R) :
  0 < a1 → 0 < b2 → a1 < a2 → b2 < b1 →
  a1 / (a1 + b1) < a2 / (a2 + b2).
Proof.
  intros Ha Hb Haa Hbb.
  assert (Hd : 0 < (a1 + b1) * (a2 + b2)) by nra.
  replace (a1 / (a1 + b1))
    with (a1 * (a2 + b2) * / ((a1 + b1) * (a2 + b2))) by (field; lra).
  replace (a2 / (a2 + b2))
    with (a2 * (a1 + b1) * / ((a1 + b1) * (a2 + b2))) by (field; lra).
  apply Rmult_lt_compat_r; [apply Rinv_0_lt_compat, Hd |]. nra.
Qed.

Lemma NaF_m_inf_at (i : nat) :
  (i <= vdivs)%nat →
  plot_inf (gateX make_channel_NaF) !! i
  = Some (Some (1500 * exp (81 * (V_at i - (-39e-3)))
                / (1500 * exp (81 * (V_at i - (-39e-3)))
                   + 1500 * exp (-66 * (V_at i - (-39e-3)))))).
Proof.
  intros Hi.
  destruct (NaF_m_at i Hi) as (a & b & Ha & Hb & Ea & Eb & Hal & Hbe).
  destruct (NaF_gate_tableB 5e-5 q10_mul _ _ i a b ltac:(lra) q10_mul_pos
              Ha Hb Hal Hbe) as (_ & _ & Hinf).
  rewrite <- Ea, <- Eb. exact Hinf.
Qed.

Lemma NaF_h_inf_at (i : nat) :
  (i <= vdivs)%nat →
  plot_inf (gateY make_channel_NaF) !! i
  = Some (Some (120 * exp (-89 * (V_at i - (-0.05)))
                / (120 * exp (-89 * (V_at i - (-0.05)))
                   + 120 * exp (89 * (V_at i - (-0.05)))))).
Proof.
  intros Hi.
  assert (Hal : NaF_alpha_h !! i
                = Some (Some (120 * exp (-89 * (V_at i - (-0.05)))))).
  { unfold NaF_alpha_h. rewrite on_grid by exact Hi. reflexivity. }
  assert (Hbe : NaF_beta_h !! i
                = Some (Some (120 * exp (89 * (V_at i - (-0.05)))))).
  { unfold NaF_beta_h. rewrite on_grid by exact Hi. reflexivity. }
  pose proof (exp_pos (-89 * (V_at i - (-0.05)))) as Ha.
  pose proof (exp_pos (89 * (V_at i - (-0.05)))) as Hb.
  assert (Hpa : 0 < 120 * exp (-89 * (V_at i - (-0.05)))) by lra.
  assert (Hpb : 0 < 120 * exp (89 * (V_at i - (-0.05)))) by lra.
  destruct (NaF_gate_tableB 2.25e-4 q10_mul _ _ i _ _ ltac:(lra) q10_mul_pos
              Hpa Hpb Hal Hbe) as (_ & _ & Hinf).
  exact Hinf.
Qed.

Lemma KDR_m_inf_at (i : nat) :
  (i <= vdivs)%nat →
  plot_inf (gateX make_channel_KDR) !! i
  = Some (Some (q10_mul * 170 * exp (73 * (V_at i - (-38e-3)))
                / (q10_mul * 170 * exp (73 * (V_at i - (-38e-3)))
                   + q10_mul * 170 * exp (-18 * (V_at i - (-38e-3)))))).
Proof.
  intros Hi. pose proof q10_mul_pos as Hq.
  assert (Hal : KDR_alpha_m q10_mul !! i
                = Some (Some (q10_mul * 170 * exp (73 * (V_at i - (-38e-3)))))).
  { unfold KDR_alpha_m. rewrite on_grid by exact Hi. reflexivity. }
  assert (Hbe : KDR_beta_m q10_mul !! i
                = Some (Some (q10_mul * 170 * exp (-18 * (V_at i - (-38e-3)))))).
  { unfold KDR_beta_m. rewrite on_grid by exact Hi. reflexivity. }
  pose proof (exp_pos (73 * (V_at i - (-38e-3)))) as Ha.
  pose proof (exp_pos (-18 * (V_at i - (-38e-3)))) as Hb.
  pose proof (np_add_lookup _ _ i _ _ Hal Hbe) as HB.
  apply (plot_inf_lookup (gateX make_channel_KDR) i _ _ Hal HB). nra.
Qed.

(** X6: along the grid the steady state of the NaF m-gate and of the KDR
    m-gate strictly increases with the voltage (activation), and the steady
    state of the NaF h-gate strictly decreases (inactivation). *)
Theorem steady_states_monotone (i j : nat) :
  (i < j)%nat → (j <= vdivs)%nat →
  (∃ x y, plot_inf (gateX make_channel_NaF) !! i = Some (Some x) ∧
          plot_inf (gateX make_channel_NaF) !! j = Some (Some y) ∧ x < y) ∧
  (∃ x y, plot_inf (gateY make_channel_NaF) !! i = Some (Some x) ∧
          plot_inf (gateY make_channel_NaF) !! j = Some (Some y) ∧ y < x) ∧
  (∃ x y, plot_inf (gateX make_channel_KDR) !! i = Some (Some x) ∧
          plot_inf (gateX make_channel_KDR) !! j = Some (Some y) ∧ x < y).
Proof.
  intros Hij Hj. assert (Hi : (i <= vdivs)%nat) by lia.
  pose proof (V_at_increasing i j Hij) as HV. pose proof q10_mul_pos as Hq.
  split; [| split].
  - eexists _, _. split; [exact (NaF_m_inf_at i Hi) |].
    split; [exact (NaF_m_inf_at j Hj) |].
    pose proof (exp_pos (81 * (V_at i - (-39e-3)))).
    pose proof (exp_pos (-66 * (V_at j - (-39e-3)))).
    assert (exp (81 * (V_at i - (-39e-3))) < exp (81 * (V_at j - (-39e-3))))
      by (apply exp_increasing; lra).
    assert (exp (-66 * (V_at j - (-39e-3))) < exp (-66 * (V_at i - (-39e-3))))
      by (apply exp_increasing; lra).
    apply ratio_increasing; lra.
  - eexists _, _. split; [exact (NaF_h_inf_at i Hi) |].
    split; [exact (NaF_h_inf_at j Hj) |].
    pose proof (exp_pos (-89 * (V_at j - (-0.05)))).
    pose proof (exp_pos (89 * (V_at i - (-0.05)))).
    assert (exp (-89 * (V_at j - (-0.05))) < exp (-89 * (V_at i - (-0.05))))
      by (apply exp_increasing; lra).
    assert (exp (89 * (V_at i - (-0.05))) < exp (89 * (V_at j - (-0.05))))
      by (apply exp_increasing; lra).
    apply ratio_increasing; lra.
  - eexists _, _. split; [exact (KDR_m_inf_at i Hi) |].
    split; [exact (KDR_m_inf_at j Hj) |].
    pose proof (exp_pos (73 * (V_at i - (-38e-3)))).
    pose proof (exp_pos (-18 * (V_at j - (-38e-3)))).
    assert (exp (73 * (V_at i - (-38e-3))) < exp (73 * (V_at j - (-38e-3))))
      by (apply exp_increasing; lra).
    assert (exp (-18 * (V_at j - (-38e-3))) < exp (-18 * (V_at i - (-38e-3))))
      by (apply exp_increasing; lra).
    apply ratio_increasing; nra.
Qed.

Lemma steady_states_monotone_witness :
  ∃ x y, plot_inf (gateX make_channel_NaF) !! 0%nat = Some (Some x) ∧
         plot_inf (gateX make_channel_NaF) !! 1%nat = Some (Some y) ∧ x < y.
Proof.
  refine (proj1 (steady_states_monotone 0 1 _ _)).
  - lia.
  - unfold vdivs. lia.
Defined.

(** ** The rate strings of granule_cell.py against the tables *)

Lemma exp_ge_1_plus (x : R) : 1 + x <= exp x.
Proof.
  destruct (Req_dec_T x 0) as [-> | Hne].
  - rewrite exp_0. lra.
  - left. apply exp_ineq1, Hne.
Qed.

Lemma exp_neq_1 (x : R) : x ≠ 0 → 1 - exp x ≠ 0.
Proof. intros Hx H0. apply Hx, exp_eq_1. lra. Qed.

Lemma fdiv_one (a : R) : fdiv a 1 = Some a.
Proof. rewrite fdiv_nonzero by lra. f_equal. field. Qed.

(** X7: the rate strings of granule_cell.py, evaluated at a membrane
    voltage [v], are the array expressions of granule_cell_hhchannel.py at
    the shifted voltage [v - v_offset] with temperature factor 1: the four
    CaHVA rates, the KDr m-gate rates and h-gate beta, the NaF m-gate tau
    and the NaF steady states. *)
Theorem granule_cell_matches_tables (v : R) :
  GC.CaHVA_m_alpha v = CaHVA_alpha_m_at 1 (v - v_offset) ∧
  GC.CaHVA_m_beta v = CaHVA_beta_m_at 1 (v - v_offset) ∧
  GC.CaHVA_h_alpha v = CaHVA_alpha_h_at 1 (v - v_offset) ∧
  GC.CaHVA_h_beta v = CaHVA_beta_h_at 1 (v - v_offset) ∧
  GC.KDr_m_alpha v = KDR_alpha_m_at 1 (v - v_offset) ∧
  GC.KDr_m_beta v = KDR_beta_m_at 1 (v - v_offset) ∧
  GC.KDr_h_beta v = KDR_beta_h_at 1 (v - v_offset) ∧
  GC.NaF_m_tau v
    = lift2 (NaF_tau_at 5e-5 1) (NaF_alpha_m_at (v - v_offset))
                                (NaF_beta_m_at (v - v_offset)) ∧
  GC.NaF_m_inf v
    = lift2 NaF_inf_at (NaF_alpha_m_at (v - v_offset))
                       (NaF_beta_m_at (v - v_offset)) ∧
  GC.NaF_h_inf v
    = lift2 NaF_inf_at (NaF_alpha_h_at (v - v_offset))
                       (NaF_beta_h_at (v - v_offset)).
Proof.
  unfold v_offset.
  split; [| split; [| split; [| split; [| split; [| split;
    [| split; [| split; [| split]]]]]]]].
  - unfold GC.CaHVA_m_alpha, CaHVA_alpha_m_at.
    rewrite !fdiv_nonzero by apply one_plus_exp_nonzero.
    rewrite obind_Some. f_equal. lra.
  - unfold GC.CaHVA_m_beta, CaHVA_beta_m_at, CaHVA_x_at.
    rewrite !fdiv_nonzero by lra. rewrite !obind_Some.
    set (X := v - 10e-3 - (-8.9e-3)).
    replace (- (X / (-0.005))) with (200 * X) by lra.
    destruct (Req_dec_T X 0) as [H0 | Hne].
    + rewrite H0. replace (200 * 0) with 0 by lra. rewrite exp_0.
      replace (1 - 1) with 0 by lra. rewrite !fdiv_zero. reflexivity.
    + assert (Hd : 1 - exp (200 * X) ≠ 0) by (apply exp_neq_1; lra).
      rewrite !fdiv_nonzero by exact Hd. rewrite obind_Some. f_equal.
      unfold Rdiv. lra.
  - unfold GC.CaHVA_h_alpha, CaHVA_alpha_h_at.
    destruct (decide (v - 10e-3 < -0.060)); f_equal; lra.
  - unfold GC.CaHVA_h_beta, CaHVA_beta_h_at.
    destruct (decide (v - 10e-3 < -0.060)); f_equal; lra.
  - unfold GC.KDr_m_alpha, KDR_alpha_m_at. f_equal. lra.
  - unfold GC.KDr_m_beta, KDR_beta_m_at. f_equal. lra.
  - unfold GC.KDr_h_beta, KDR_beta_h_at.
    rewrite !fdiv_nonzero by apply one_plus_exp_nonzero.
    rewrite obind_Some. f_equal. lra.
  - unfold GC.NaF_m_tau, NaF_alpha_m_at, NaF_beta_m_at, lift2, NaF_tau_at,
      GC.NaF_m_alpha, GC.NaF_m_beta.
    rewrite !obind_Some.
    pose proof (exp_sum_pos 1500 (81 * (v - 10e-3 - (-39e-3)))
                  (-66 * (v - 10e-3 - (-39e-3))) ltac:(lra)) as Hpos.
    rewrite !decide_False by lra. rewrite !fdiv_nonzero by lra.
    rewrite !obind_Some. rewrite fdiv_one. reflexivity.
  - unfold GC.NaF_m_inf, NaF_alpha_m_at, NaF_beta_m_at, lift2, NaF_inf_at,
      GC.NaF_m_alpha, GC.NaF_m_beta.
    rewrite !obind_Some. reflexivity.
  - unfold GC.NaF_h_inf, NaF_alpha_h_at, NaF_beta_h_at, lift2, NaF_inf_at,
      GC.NaF_h_alpha, GC.NaF_h_beta.
    rewrite !obind_Some. reflexivity.
Qed.

(** X8: the alpha rate of the KDr h-gate is written differently in
    granule_cell.py ([exp(-80 * V - (-46e-3))]) and in
    granule_cell_hhchannel.py ([exp(-80 * (V - (-46e-3)))]): above the cut
    [V > -0.046] both give 0.76, at and below the cut the rate of
    granule_cell.py is the larger one. *)
Theorem KDr_h_alpha_variants (v : R) :
  ∃ a g, KDR_alpha_h_at 1 (v - v_offset) = Some a ∧
         GC.KDr_h_alpha v = Some g ∧
         (v - v_offset > -0.046 → a = 0.76 ∧ g = 0.76) ∧
         (v - v_offset <= -0.046 → a < g).
Proof.
  unfold v_offset, KDR_alpha_h_at, GC.KDr_h_alpha.
  destruct (decide (v - 10e-3 > -0.046)) as [Hgt | Hle].
  - exists (0.76 * 1), 0.76. rewrite obind_Some.
    split; [reflexivity |]. split; [reflexivity |].
    split; [intros _; lra | intros Hc; lra].
  - eexists _, _. rewrite obind_Some.
    split; [reflexivity |]. split; [reflexivity |].
    split; [intros Hc; contradiction |]. intros _.
    assert (Hexp : exp (-80 * (v - 10e-3 - (-46e-3)))
                   < exp (-80 * (v - 10e-3) - (-46e-3)))
      by (apply exp_increasing; lra).
    lra.
Qed.

(** ** The rate expressions of granule_cell_hhchannel2.py *)

(** X9: the beta expression of the CaHVA m-gate in
    granule_cell_hhchannel2.py has the exponent [200 * x / (-0.005)] where
    granule_cell_hhchannel.py has [-x].  It is never positive: at every
    voltage [v >= -0.016] other than [v = 1.1e-3] it is finite and negative,
    and at every [v <= -0.017], where the exponent is beyond the range of
    [exp], it is zero. *)
Theorem HH2_CaHVA_beta_not_positive (v : R) :
  v ≠ 1.1e-3 →
  ∃ b, HH2.CaHVA_m_betaExpr v = Some b ∧ b <= 0 ∧
       (-0.016 <= v → b < 0) ∧
       (v <= -0.017 → b = 0).
Proof.
  intros Hv. pose proof HH2_Q10_MUL_gt_1 as HQ.
  unfold HH2.CaHVA_m_betaExpr, HH2.CaHVA_m_beta, HH2.exp_overflow.
  rewrite !fdiv_nonzero by lra. rewrite !obind_Some.
  set (X := v - 10e-3 - (-8.9e-3)).
  assert (HX : X ≠ 0) by (unfold X; lra).
  set (e := 200 * X / (-0.005)).
  assert (He : e ≠ 0) by (unfold e; lra).
  assert (En : 100 * X / (-0.005) = -20000 * X) by lra.
  assert (Hneg : 100 * X / (-0.005) / (1 - exp e) < 0).
  { rewrite En. unfold Rdiv. destruct (Rlt_le_dec 0 X) as [Hpos | Hnp].
    - assert (He0 : e < 0) by (unfold e; lra).
      pose proof (exp_lt_1 e He0) as Hlt.
      assert (Hinv : 0 < / (1 - exp e)) by (apply Rinv_0_lt_compat; lra).
      nra.
    - assert (HXn : X < 0) by lra.
      assert (He0 : 0 < e) by (unfold e; lra).
      pose proof (exp_gt_1 e He0) as Hgt.
      assert (Hinv : / (1 - exp e) < 0) by (apply Rinv_lt_0_compat; lra).
      nra. }
  destruct (decide (709.782712893384 < e)) as [Hover | Hfin].
  - rewrite obind_Some. eexists. split; [reflexivity |].
    split; [lra |]. split.
    + intros Hlo. exfalso. unfold e, X in Hover. lra.
    + intros _. lra.
  - rewrite fdiv_nonzero by (apply exp_neq_1, He). rewrite obind_Some.
    eexists. split; [reflexivity |]. split; [nra |]. split.
    + intros _. nra.
    + intros Hhi. exfalso. apply Hfin. unfold e, X. lra.
Qed.

Lemma HH2_CaHVA_beta_not_positive_witness :
  ∃ b, HH2.CaHVA_m_betaExpr 0 = Some b ∧ b <= 0 ∧
       (-0.016 <= 0 → b < 0) ∧ (0 <= -0.017 → b = 0).
Proof.
  refine (HH2_CaHVA_beta_not_positive 0 _). lra.
Defined.

(** X10: in granule_cell.py the NaF m-gate time constant is bounded below
    by [5e-5] (a [max]), while the h-gate time constant is bounded above by
    [2.25e-4] (a [min]); both are finite and positive at every voltage. *)
Theorem GC_NaF_tau_clamps (v : R) :
  ∃ tm th,
    GC.NaF_m_tau v
      = Some tm ∧
    tm = Rmax (1 / (GC.NaF_m_alpha v + GC.NaF_m_beta v)) 5e-5 ∧
    5e-5 <= tm ∧
    GC.NaF_h_tau v = Some th ∧
    th = Rmin (1 / (GC.NaF_h_alpha v + GC.NaF_h_beta v)) 2.25e-4 ∧
    0 < th <= 2.25e-4.
Proof.
  assert (Hm : 0 < GC.NaF_m_alpha v + GC.NaF_m_beta v).
  { unfold GC.NaF_m_alpha, GC.NaF_m_beta. apply exp_sum_pos. lra. }
  assert (Hh : 0 < GC.NaF_h_alpha v + GC.NaF_h_beta v).
  { unfold GC.NaF_h_alpha, GC.NaF_h_beta. apply exp_sum_pos. lra. }
  eexists _, _.
  split; [| split; [reflexivity | split; [apply Rmax_r |]]].
  - unfold GC.NaF_m_tau. cbv zeta. rewrite decide_False by lra.
    rewrite fdiv_nonzero by lra. reflexivity.
  - split; [| split; [reflexivity |]].
    + unfold GC.NaF_h_tau. cbv zeta. rewrite decide_False by lra.
      rewrite fdiv_nonzero by lra. reflexivity.
    + split; [| apply Rmin_r].
      apply Rmin_glb_lt; [| lra]. apply Rdiv_lt_0_compat; lra.
Qed.

(** [c e^x / (c e^x + c e^y)] is the logistic function of [y - x]. *)
Lemma logistic_form (c x y : R) :
  0 < c → c * exp x / (c * exp x + c * exp y) = 1 / (1 + exp (y - x)).
Proof.
  intros Hc. pose proof (exp_pos x) as Hx. pose proof (exp_pos (y - x)) as Hd.
  assert (Ey : exp y = exp x * exp (y - x)).
  { rewrite <- exp_plus. f_equal. lra. }
  rewrite Ey.
  assert (H1 : 0 < c * exp x) by (apply Rmult_lt_0_compat; assumption).
  assert (H2 : 0 < exp x * exp (y - x))
    by (apply Rmult_lt_0_compat; assumption).
  assert (H3 : 0 < c * (exp x * exp (y - x)))
    by (apply Rmult_lt_0_compat; assumption).
  field. split; lra.
Qed.

(** X11: the steady states of the NaF gates do not depend on the
    temperature factor: in granule_cell_hhchannel2.py, where both rates
    carry [Q10_MUL], they are the logistic functions
    [1/(1 + exp(-147 * (V + 39e-3)))] and [1/(1 + exp(178 * (V + 0.05)))]
    of [V = v - 10e-3], and they equal the steady states computed without
    the factor in granule_cell_hhchannel.py. *)
Theorem NaF_steady_state_logistic (v : R) :
  HH2.NaF_m_infExpr v
    = Some (1 / (1 + exp (-147 * ((v - 10e-3) - (-39e-3))))) ∧
  HH2.NaF_h_infExpr v
    = Some (1 / (1 + exp (178 * ((v - 10e-3) - (-0.05))))) ∧
  HH2.NaF_m_infExpr v
    = lift2 NaF_inf_at (NaF_alpha_m_at (v - v_offset))
                       (NaF_beta_m_at (v - v_offset)) ∧
  HH2.NaF_h_infExpr v
    = lift2 NaF_inf_at (NaF_alpha_h_at (v - v_offset))
                       (NaF_beta_h_at (v - v_offset)).
Proof.
  pose proof HH2_Q10_MUL_gt_1 as HQ.
  assert (Hm : HH2.NaF_m_infExpr v
               = Some (1 / (1 + exp (-147 * ((v - 10e-3) - (-39e-3)))))).
  { unfold HH2.NaF_m_infExpr, HH2.NaF_inf_body, HH2.NaF_m_alpha,
      HH2.NaF_m_beta.
    pose proof (exp_sum_pos (HH2.Q10_MUL * 1500)
                  (81 * (v - 10e-3 - (-39e-3)))
                  (-66 * (v - 10e-3 - (-39e-3))) ltac:(lra)) as Hpos.
    rewrite fdiv_nonzero by lra. f_equal.
    rewrite logistic_form by lra. do 3 f_equal. lra. }
  assert (Hh : HH2.NaF_h_infExpr v
               = Some (1 / (1 + exp (178 * ((v - 10e-3) - (-0.05)))))).
  { unfold HH2.NaF_h_infExpr, HH2.NaF_inf_body, HH2.NaF_h_alpha,
      HH2.NaF_h_beta.
    pose proof (exp_sum_pos (HH2.Q10_MUL * 120)
                  (-89 * (v - 10e-3 - (-0.05)))
                  (89 * (v - 10e-3 - (-0.05))) ltac:(lra)) as Hpos.
    rewrite fdiv_nonzero by lra. f_equal.
    rewrite logistic_form by lra. do 3 f_equal. lra. }
  split; [exact Hm |]. split; [exact Hh |]. split.
  - rewrite Hm. unfold v_offset, NaF_alpha_m_at, NaF_beta_m_at, lift2,
      NaF_inf_at. rewrite !obind_Some.
    pose proof (exp_sum_pos 1500 (81 * (v - 10e-3 - (-39e-3)))
                  (-66 * (v - 10e-3 - (-39e-3))) ltac:(lra)) as Hpos.
    rewrite fdiv_nonzero by lra. f_equal.
    rewrite logistic_form by lra. do 3 f_equal. lra.
  - rewrite Hh. unfold v_offset, NaF_alpha_h_at, NaF_beta_h_at, lift2,
      NaF_inf_at. rewrite !obind_Some.
    pose proof (exp_sum_pos 120 (-89 * (v - 10e-3 - (-0.05)))
                  (89 * (v - 10e-3 - (-0.05))) ltac:(lra)) as Hpos.
    rewrite fdiv_nonzero by lra. f_equal.
    rewrite logistic_form by lra. do 3 f_equal. lra.
Qed.

Lemma exp_small_range (d lo hi : R) :
  -1 < lo → lo <= d → d <= hi → hi < 1 →
  1 + lo <= exp d ∧ exp d * (1 - hi) <= 1.
Proof.
  intros Hlo Hd1 Hd2 Hhi. split.
  - pose proof (exp_ge_1_plus d). lra.
  - pose proof (exp_ge_1_plus (- d)) as Hm. pose proof (exp_pos d) as Hp.
    assert (Hprod : exp d * exp (- d) = 1).
    { rewrite <- exp_plus. replace (d + - d) with 0 by lra. apply exp_0. }
    nra.
Qed.

Lemma logistic_in_unit (e : R) : 0 < e → 0 < 1 / (1 + e) < 1.
Proof.
  intros He. split.
  - apply Rdiv_lt_0_compat; lra.
  - apply (Rmult_lt_reg_r (1 + e)); [lra |].
    replace (1 / (1 + e) * (1 + e)) with 1 by (field; lra). lra.
Qed.

(** X12: over the voltage range of the tables, [vmin <= v <= vmax], the KA
    gate expressions of granule_cell_hhchannel2.py are finite; the m-gate
    time constant is above [0.167e-3] and the h-gate time constant above
    [0.006] before the factor [Q10_MUL] is applied; the h-gate steady state
    lies in (0, 1); the m-gate steady state, whose slope constant is
    [19.8], stays between 0.49 and 0.51. *)
Theorem KA_gates_on_range (v : R) :
  HH2.vmin <= v <= HH2.vmax →
  ∃ tm th xm xh,
    HH2.KA_m_tau v = Some tm ∧ 0.167e-3 < tm ∧
    HH2.KA_m_tauExpr v = Some (HH2.Q10_MUL * tm) ∧
    HH2.KA_h_tau v = Some th ∧ 0.006 < th ∧
    HH2.KA_h_tauExpr v = Some (HH2.Q10_MUL * th) ∧
    HH2.KA_m_infExpr v = Some xm ∧ 0.49 < xm < 0.51 ∧
    HH2.KA_h_infExpr v = Some xh ∧ 0 < xh < 1.
Proof.
  unfold HH2.vmin, HH2.vmax. intros [Hlo Hhi].
  (* m-gate tau *)
  set (dm := - (v - 10e-3 - (-43.5e-3)) / 0.0428).
  assert (Htm : HH2.KA_m_tau v = Some (0.41e-3 * exp dm + 0.167e-3)).
  { unfold HH2.KA_m_tau. rewrite fdiv_nonzero by lra. reflexivity. }
  (* h-gate tau *)
  set (den := 57.9 * exp ((v - 10e-3) * 127) + 134e-6 * exp (-59 * (v - 10e-3))).
  assert (Hden : 0 < den).
  { unfold den. pose proof (exp_pos ((v - 10e-3) * 127)).
    pose proof (exp_pos (-59 * (v - 10e-3))). lra. }
  assert (Hth : HH2.KA_h_tau v
                = Some (0.001 * (10.8 + 30 * (v - 10e-3) + 1 / den))).
  { unfold HH2.KA_h_tau. fold den. rewrite fdiv_nonzero by lra. reflexivity. }
  assert (Hq : 0 < 1 / den) by (apply Rdiv_lt_0_compat; lra).
  (* m-gate inf *)
  set (di := - (v - 10e-3 - (-46.7e-3)) / 19.8).
  assert (Hxm : HH2.KA_m_infExpr v = Some (1 / (1 + exp di))).
  { unfold HH2.KA_m_infExpr. rewrite fdiv_nonzero by lra. rewrite obind_Some.
    fold di. apply fdiv_nonzero, one_plus_exp_nonzero. }
  assert (Hdi : -0.01 <= di ∧ di <= 0.01) by (unfold di; lra).
  destruct (exp_small_range di (-0.01) 0.01 ltac:(lra) (proj1 Hdi)
              (proj2 Hdi) ltac:(lra)) as [He1 He2].
  (* h-gate inf *)
  set (dh := - (v - 10e-3 - (-78.8e-3)) / 0.0084).
  assert (Hxh : HH2.KA_h_infExpr v = Some (1 / (1 + exp dh))).
  { unfold HH2.KA_h_infExpr. rewrite fdiv_nonzero by lra. rewrite obind_Some.
    fold dh. apply fdiv_nonzero, one_plus_exp_nonzero. }
  eexists _, _, _, _.
  split; [exact Htm |]. split; [pose proof (exp_pos dm); lra |].
  split; [unfold HH2.KA_m_tauExpr; rewrite Htm; reflexivity |].
  split; [exact Hth |]. split; [lra |].
  split; [unfold HH2.KA_h_tauExpr; rewrite Hth; reflexivity |].
  split; [exact Hxm |]. split.
  - pose proof (exp_pos di) as Hp.
    assert (Hx : 1 / (1 + exp di) * (1 + exp di) = 1) by (field; lra).
    split; nra.
  - split; [exact Hxh |]. apply logistic_in_unit, exp_pos.
Qed.

Lemma KA_gates_on_range_witness :
  ∃ tm th xm xh,
    HH2.KA_m_tau 0 = Some tm ∧ 0.167e-3 < tm ∧
    HH2.KA_m_tauExpr 0 = Some (HH2.Q10_MUL * tm) ∧
    HH2.KA_h_tau 0 = Some th ∧ 0.006 < th ∧
    HH2.KA_h_tauExpr 0 = Some (HH2.Q10_MUL * th) ∧
    HH2.KA_m_infExpr 0 = Some xm ∧ 0.49 < xm < 0.51 ∧
    HH2.KA_h_infExpr 0 = Some xh ∧ 0 < xh < 1.
Proof.
  refine (KA_gates_on_range 0 _). unfold HH2.vmin, HH2.vmax. lra.
Defined.

(** X13: for a positive calcium concentration the two rates of the KCa gate
    are finite, [alpha] lies in (0, 2500) and grows with the concentration,
    [beta] lies in (0, 1500) and shrinks with it; the expressions handed to
    the engine are these rates times [Q10_MUL]. *)
Theorem KCa_rates_in_calcium (v c1 c2 : R) :
  0 < c1 → c1 < c2 →
  ∃ a1 a2 b1 b2,
    HH2.KCa_alpha v c1 = Some a1 ∧ HH2.KCa_alpha v c2 = Some a2 ∧
    HH2.KCa_beta v c1 = Some b1 ∧ HH2.KCa_beta v c2 = Some b2 ∧
    0 < a1 ∧ a1 < a2 ∧ a2 < 2500 ∧
    0 < b2 ∧ b2 < b1 ∧ b1 < 1500 ∧
    HH2.KCa_alphaExpr v c1 = Some (HH2.Q10_MUL * a1) ∧
    HH2.KCa_betaExpr v c1 = Some (HH2.Q10_MUL * b1).
Proof.
  intros Hc1 Hc12.
  set (k := 1.5e-3 * exp (-85 * (v - 10e-3))).
  set (m := 1.5e-4 * exp (-77 * (v - 10e-3))).
  assert (Hk : 0 < k) by (unfold k; pose proof (exp_pos (-85 * (v - 10e-3))); lra).
  assert (Hm : 0 < m) by (unfold m; pose proof (exp_pos (-77 * (v - 10e-3))); lra).
  assert (Halpha : ∀ c, 0 < c →
            HH2.KCa_alpha v c = Some (2500 / (1 + k / c)) ∧ 0 < k / c).
  { intros c Hc. assert (Hr : 0 < k / c) by (apply Rdiv_lt_0_compat; lra).
    split; [| exact Hr]. unfold HH2.KCa_alpha. fold k.
    rewrite fdiv_nonzero by lra. rewrite obind_Some.
    apply fdiv_nonzero. lra. }
  assert (Hbeta : ∀ c, 0 < c →
            HH2.KCa_beta v c = Some (1500 / (1 + c / m)) ∧ 0 < c / m).
  { intros c Hc. assert (Hr : 0 < c / m) by (apply Rdiv_lt_0_compat; lra).
    split; [| exact Hr]. unfold HH2.KCa_beta. fold m.
    rewrite fdiv_nonzero by lra. rewrite obind_Some.
    apply fdiv_nonzero. lra. }
  destruct (Halpha c1 Hc1) as [Ea1 Hr1].
  destruct (Halpha c2 ltac:(lra)) as [Ea2 Hr2].
  destruct (Hbeta c1 Hc1) as [Eb1 Hs1].
  destruct (Hbeta c2 ltac:(lra)) as [Eb2 Hs2].
  assert (Hrr : k / c2 < k / c1).
  { unfold Rdiv. apply Rmult_lt_compat_l; [exact Hk |].
    apply Rinv_lt_contravar; [nra | exact Hc12]. }
  assert (Hss : c1 / m < c2 / m).
  { unfold Rdiv. apply Rmult_lt_compat_r; [apply Rinv_0_lt_compat, Hm | exact Hc12]. }
  assert (Hfrac : ∀ N p q, 0 < N → 0 < p → p < q →
            0 < N / (1 + q) ∧ N / (1 + q) < N / (1 + p) ∧ N / (1 + p) < N).
  { intros N p q HN Hp Hpq. split; [| split].
    - apply Rdiv_lt_0_compat; lra.
    - unfold Rdiv. apply Rmult_lt_compat_l; [exact HN |].
      apply Rinv_lt_contravar; [nra | lra].
    - apply (Rmult_lt_reg_r (1 + p)); [lra |].
      replace (N / (1 + p) * (1 + p)) with N by (field; lra). nra. }
  destruct (Hfrac 2500 (k / c2) (k / c1) ltac:(lra) Hr2 Hrr) as (Ha1 & Ha12 & Ha2).
  destruct (Hfrac 1500 (c1 / m) (c2 / m) ltac:(lra) Hs1 Hss) as (Hb2 & Hb21 & Hb1).
  eexists _, _, _, _.
  split; [exact Ea1 |]. split; [exact Ea2 |].
  split; [exact Eb1 |]. split; [exact Eb2 |].
  do 6 (split; [assumption |]). split.
  - unfold HH2.KCa_alphaExpr. rewrite Ea1. reflexivity.
  - unfold HH2.KCa_betaExpr. rewrite Eb1. reflexivity.
Qed.

Lemma KCa_rates_in_calcium_witness :
  ∃ a1 a2 b1 b2,
    HH2.KCa_alpha 0 1 = Some a1 ∧ HH2.KCa_alpha 0 2 = Some a2 ∧
    HH2.KCa_beta 0 1 = Some b1 ∧ HH2.KCa_beta 0 2 = Some b2 ∧
    0 < a1 ∧ a1 < a2 ∧ a2 < 2500 ∧
    0 < b2 ∧ b2 < b1 ∧ b1 < 1500 ∧
    HH2.KCa_alphaExpr 0 1 = Some (HH2.Q10_MUL * a1) ∧
    HH2.KCa_betaExpr 0 1 = Some (HH2.Q10_MUL * b1).
Proof.
  refine (KCa_rates_in_calcium 0 1 2 _ _); lra.
Defined.

(** ** More on the cell loader *)

Module CellsMore.
Import Cells CellsFacts.
#[local] Open Scope string_scope.

Lemma bind_Ok_inv {A B : Type} (m : M A) (f : A → M B) (w w' : World) (b : B) :
  (m ≫= f) w = (Ok b, w') →
  ∃ a w1, m w = (Ok a, w1) ∧ f a w1 = (Ok b, w').
Proof.
  unfold mbind, M_bind. destruct (m w) as [[a | e] w1]; intros Hrun.
  - exists a, w1. split; [reflexivity | exact Hrun].
  - discriminate.
Qed.

(** The world after one and after two recorded reads. *)
Lemma read_csv_found (file : string) (w : World) (f : frame) :
  fs w !! file = Some f →
  read_csv_to_dict file w
  = (Ok f, mkWorld (fs w) (objs w) (trace w ++ [EvReadCsv file])).
Proof. intros Hf. unfold read_csv_to_dict. rewrite Hf. reflexivity. Qed.

Lemma read_csv_missing (file : string) (w : World) :
  fs w !! file = None →
  read_csv_to_dict file w
  = (Raise (FileNotFoundError file),
     mkWorld (fs w) (objs w) (trace w ++ [EvReadCsv file])).
Proof. intros Hf. unfold read_csv_to_dict. rewrite Hf. reflexivity. Qed.

(** The loop body fails on its first statement, whatever the item. *)
Lemma depth_loop (proto : Elem) (depths levels : frame) (w : World) :
  for_each levels (λ '(num, level),
    depth ← getitem_dict_key depths level;
    comp ← element (path proto ++ "/comp_" ++ num);
    setattr comp "z" depth) w
  = match levels with
    | [] => (Ok tt, w)
    | _ :: _ => (Raise (TypeError "unhashable type: 'dict'"), w)
    end.
Proof. destruct levels as [| [num level] rest]; reflexivity. Qed.

Lemma bind_Raise {A B : Type} (m : M A) (f : A → M B) (w w' : World) (e : exn) :
  m w = (Raise e, w') → (m ≫= f) w = (Raise e, w').
Proof. intros Hm. unfold mbind, M_bind. rewrite Hm. reflexivity. Qed.

Section DepthFiles.
Context (proto : Elem) (spec : gmap string string) (protodir : string)
        (w : World) (d df lf : string).
Hypothesis Hd : spec !! "depth" = Some d.
Hypothesis Hdf : spec !! "depths" = Some df.
Hypothesis Hlf : spec !! "levels" = Some lf.

Let pd := path_join protodir df.
Let pl := path_join protodir lf.
Let w1 := mkWorld (fs w) (objs w) (trace w ++ [EvReadCsv pd]).
Let w2 := mkWorld (fs w) (objs w) (trace w ++ [EvReadCsv pd; EvReadCsv pl]).

Lemma second_read_world :
  mkWorld (fs w1) (objs w1) (trace w1 ++ [EvReadCsv pl]) = w2.
Proof. unfold w1, w2. cbn. rewrite <- app_assoc. reflexivity. Qed.

Lemma depths_file_missing :
  fs w !! pd = None →
  assign_depths proto spec protodir w = (Raise (FileNotFoundError pd), w1).
Proof.
  intros HD. unfold assign_depths. rewrite Hd, Hdf, Hlf. fold pd pl.
  rewrite (bind_Raise _ _ _ _ _ (read_csv_missing pd w HD)). reflexivity.
Qed.

Lemma levels_file_missing (D : frame) :
  fs w !! pd = Some D → fs w !! pl = None →
  assign_depths proto spec protodir w = (Raise (FileNotFoundError pl), w2).
Proof.
  intros HD HL. unfold assign_depths. rewrite Hd, Hdf, Hlf. fold pd pl.
  rewrite (bind_Ok _ _ _ _ _ (read_csv_found pd w D HD)). fold w1.
  rewrite (bind_Raise _ _ _ _ _ (read_csv_missing pl w1 HL)).
  rewrite second_read_world. reflexivity.
Qed.

Lemma both_files_read (D L : frame) :
  fs w !! pd = Some D → fs w !! pl = Some L →
  assign_depths proto spec protodir w
  = match L with
    | [] => (Ok tt, w2)
    | _ :: _ => (Raise (TypeError "unhashable type: 'dict'"), w2)
    end.
Proof.
  intros HD HL. unfold assign_depths. rewrite Hd, Hdf, Hlf. fold pd pl.
  rewrite (bind_Ok _ _ _ _ _ (read_csv_found pd w D HD)). fold w1.
  rewrite (bind_Ok _ _ _ _ _ (read_csv_found pl w1 L HL)).
  rewrite second_read_world. rewrite depth_loop. destruct L; reflexivity.
Qed.
End DepthFiles.

Section WithExternals.
Context `{E : Externals}.

(** When [get_cell] returns, it returns what [get_proto] returned: the
    element found, or [None] after loading. *)
Lemma get_cell_returns_found (name : string) (spec : gmap string string)
    (parent protodir : string) (w w' : World) (r : option Elem) :
  get_cell name spec parent protodir w = (Ok r, w') →
  ∃ wp, get_proto name parent w = (Ok r, wp).
Proof.
  unfold get_cell. intros Hrun.
  apply bind_Ok_inv in Hrun as (found & w1 & Hproto & Hrest).
  destruct found as [c |].
  - injection Hrest as <- _. exists w1. exact Hproto.
  - apply bind_Ok_inv in Hrest as (u & w2 & _ & Hrest).
    apply bind_Ok_inv in Hrest as (file & w3 & _ & Hrest).
    apply bind_Ok_inv in Hrest as (proto & w4 & _ & Hrest).
    apply bind_Ok_inv in Hrest as (u' & w5 & _ & Hrest).
    injection Hrest as <- _. exists w1. exact Hproto.
Qed.

Lemma init_cells_loop_dom (items : list (string * gmap string string)) :
  ∀ (acc cells : gmap string (option Elem)) (w w' : World),
    init_cells_loop items acc w = (Ok cells, w') →
    dom cells = dom acc ∪ list_to_set items.*1.
Proof.
  induction items as [| [name spec] rest IH]; intros acc cells w w' Hrun.
  - injection Hrun as <- _.
    cbn [fmap list_fmap list_to_set]. rewrite union_empty_r_L. reflexivity.
  - cbn [init_cells_loop] in Hrun.
    apply bind_Ok_inv in Hrun as (r & w1 & Hcell & Hrest).
    rewrite (IH _ _ _ _ Hrest), dom_insert_L.
    cbn [fmap list_fmap list_to_set fst].
    rewrite (union_comm_L {[name]} (dom acc)), <- union_assoc_L.
    reflexivity.
Qed.

(** The loop writes only the keys of its items. *)
Lemma init_cells_loop_keeps (items : list (string * gmap string string)) :
  ∀ (acc cells : gmap string (option Elem)) (w w' : World) (n : string),
    init_cells_loop items acc w = (Ok cells, w') →
    n ∉ items.*1 → cells !! n = acc !! n.
Proof.
  induction items as [| [name spec] rest IH]; intros acc cells w w' n Hrun Hn.
  - injection Hrun as <- _. reflexivity.
  - cbn [init_cells_loop] in Hrun.
    apply bind_Ok_inv in Hrun as (r & w1 & Hcell & Hrest).
    cbn [fmap list_fmap fst] in Hn.
    apply not_elem_of_cons in Hn as [Hne Hn].
    rewrite (IH _ _ _ _ n Hrest Hn). apply lookup_insert_ne. congruence.
Qed.

(** The item at position [k] is handled in the world reached after the
    first [k] items, and the dict keeps for its name what [get_proto]
    returned in that world. *)
Lemma init_cells_loop_turn (items : list (string * gmap string string)) :
  ∀ (acc cells : gmap string (option Elem)) (w w' : World) (k : nat)
    (name : string) (spec : gmap string string),
    init_cells_loop items acc w = (Ok cells, w') →
    NoDup items.*1 →
    items !! k = Some (name, spec) →
    ∃ ck wk r wp,
      init_cells_loop (take k items) acc w = (Ok ck, wk) ∧
      get_proto name "/library" wk = (Ok r, wp) ∧
      cells !! name = Some r.
Proof.
  induction items as [| [n0 s0] rest IH];
    intros acc cells w w' k name spec Hrun Hnd Hk.
  - discriminate.
  - cbn [init_cells_loop] in Hrun.
    apply bind_Ok_inv in Hrun as (r0 & w1 & Hcell & Hrest).
    cbn [fmap list_fmap fst] in Hnd. apply NoDup_cons in Hnd as [Hfresh Hnd].
    destruct k as [| k'].
    + injection Hk as <- <-.
      destruct (get_cell_returns_found _ _ _ _ _ _ _ Hcell) as [wp Hp].
      exists acc, w, r0, wp. split; [reflexivity |]. split; [exact Hp |].
      rewrite (init_cells_loop_keeps rest _ _ _ _ n0 Hrest Hfresh).
      apply lookup_insert_eq.
    + cbn [lookup list_lookup] in Hk.
      destruct (IH _ _ _ _ k' name spec Hrest Hnd Hk)
        as (ck & wk & r & wp & Hpre & Hp & Hc).
      exists ck, wk, r, wp. split; [| split; [exact Hp | exact Hc]].
      cbn [take init_cells_loop].
      rewrite (bind_Ok _ _ _ _ _ Hcell). exact Hpre.
Qed.

End WithExternals.

Lemma cell_spec_from_items : cell_spec = list_to_map cell_spec_items.
Proof. reflexivity. Qed.

Lemma cell_spec_names_distinct : NoDup cell_spec_items.*1.
Proof. apply (bool_decide_unpack _). vm_compute. exact I. Qed.

End CellsMore.

(** X14: what [assign_depths] does, for any spec.  Without one of the keys
    ['depth'], ['depths'], ['levels'] it returns and touches nothing.  With
    all three it reads the depths file, then the levels file, and stops with
    [FileNotFoundError] at the first one that is missing; with both files
    read it fails with [TypeError] on the first item of the levels frame,
    because it uses a column (a dict) as a key, and only an empty levels
    frame lets it return. *)
Theorem assign_depths_outcomes (proto : Cells.Elem)
    (spec : gmap string string) (protodir : string) (w : Cells.World) :
  Cells.assign_depths proto spec protodir w
  = match spec !! "depth"%string, spec !! "depths"%string,
          spec !! "levels"%string with
    | Some _, Some df, Some lf =>
      let pd := Cells.path_join protodir df in
      let pl := Cells.path_join protodir lf in
      let w1 := Cells.mkWorld (Cells.fs w) (Cells.objs w)
                  (Cells.trace w ++ [Cells.EvReadCsv pd]) in
      let w2 := Cells.mkWorld (Cells.fs w) (Cells.objs w)
                  (Cells.trace w ++ [Cells.EvReadCsv pd; Cells.EvReadCsv pl]) in
      match Cells.fs w !! pd with
      | None => (Cells.Raise (Cells.FileNotFoundError pd), w1)
      | Some _ =>
        match Cells.fs w !! pl with
        | None => (Cells.Raise (Cells.FileNotFoundError pl), w2)
        | Some [] => (Cells.Ok tt, w2)
        | Some (_ :: _) =>
            (Cells.Raise (Cells.TypeError "unhashable type: 'dict'"), w2)
        end
      end
    | _, _, _ => (Cells.Ok tt, w)
    end.
Proof.
  destruct (spec !! "depth"%string) as [d |] eqn:Hd;
    [| unfold Cells.assign_depths; rewrite Hd; reflexivity].
  destruct (spec !! "depths"%string) as [df |] eqn:Hdf;
    [| unfold Cells.assign_depths; rewrite Hd, Hdf; reflexivity].
  destruct (spec !! "levels"%string) as [lf |] eqn:Hlf;
    [| unfold Cells.assign_depths; rewrite Hd, Hdf, Hlf; reflexivity].
  cbv zeta.
  destruct (Cells.fs w !! Cells.path_join protodir df) as [D |] eqn:HD.
  - destruct (Cells.fs w !! Cells.path_join protodir lf) as [L |] eqn:HL.
    + rewrite (CellsMore.both_files_read proto spec protodir w d df lf
                 Hd Hdf Hlf D L HD HL).
      destruct L; reflexivity.
    + exact (CellsMore.levels_file_missing proto spec protodir w d df lf
               Hd Hdf Hlf D HD HL).
  - exact (CellsMore.depths_file_missing proto spec protodir w d df lf
             Hd Hdf Hlf HD).
Qed.

(** X15: whatever the spec and the state of the simulator, [assign_depths]
    leaves the object tree and the data files as they are; all it can do is
    read at most two files. *)
Theorem assign_depths_frame (proto : Cells.Elem) (spec : gmap string string)
    (protodir : string) (w : Cells.World) :
  Cells.objs (snd (Cells.assign_depths proto spec protodir w)) = Cells.objs w ∧
  Cells.fs (snd (Cells.assign_depths proto spec protodir w)) = Cells.fs w ∧
  ∃ reads,
    Cells.trace (snd (Cells.assign_depths proto spec protodir w))
      = Cells.trace w ++ reads ∧
    (length reads <= 2)%nat ∧
    Forall (λ ev, ∃ file, ev = Cells.EvReadCsv file) reads.
Proof.
  assert (Hnone : ∃ reads : list Cells.event,
            Cells.trace w = Cells.trace w ++ reads ∧ (length reads <= 2)%nat ∧
            Forall (λ ev, ∃ file, ev = Cells.EvReadCsv file) reads).
  { exists nil. rewrite app_nil_r. split; [reflexivity |].
    split; [cbn; lia | constructor]. }
  assert (Hone : ∀ f, ∃ reads : list Cells.event,
            Cells.trace w ++ [Cells.EvReadCsv f] = Cells.trace w ++ reads ∧
            (length reads <= 2)%nat ∧
            Forall (λ ev, ∃ file, ev = Cells.EvReadCsv file) reads).
  { intros f. exists (cons (Cells.EvReadCsv f) nil). split; [reflexivity |].
    split; [cbn; lia | repeat constructor; eauto]. }
  assert (Htwo : ∀ f1 f2, ∃ reads : list Cells.event,
            Cells.trace w ++ [Cells.EvReadCsv f1; Cells.EvReadCsv f2]
              = Cells.trace w ++ reads ∧
            (length reads <= 2)%nat ∧
            Forall (λ ev, ∃ file, ev = Cells.EvReadCsv file) reads).
  { intros f1 f2.
    exists (cons (Cells.EvReadCsv f1) (cons (Cells.EvReadCsv f2) nil)).
    split; [reflexivity |].
    split; [cbn; lia | repeat constructor; eauto]. }
  destruct (spec !! "depth"%string) as [d |] eqn:Hd;
    [| unfold Cells.assign_depths; rewrite Hd; cbn; auto].
  destruct (spec !! "depths"%string) as [df |] eqn:Hdf;
    [| unfold Cells.assign_depths; rewrite Hd, Hdf; cbn; auto].
  destruct (spec !! "levels"%string) as [lf |] eqn:Hlf;
    [| unfold Cells.assign_depths; rewrite Hd, Hdf, Hlf; cbn; auto].
  destruct (Cells.fs w !! Cells.path_join protodir df) as [D |] eqn:HD.
  - destruct (Cells.fs w !! Cells.path_join protodir lf) as [L |] eqn:HL.
    + rewrite (CellsMore.both_files_read proto spec protodir w d df lf
                 Hd Hdf Hlf D L HD HL).
      destruct L; cbn; auto.
    + rewrite (CellsMore.levels_file_missing proto spec protodir w d df lf
                 Hd Hdf Hlf D HD HL).
      cbn. auto.
  - rewrite (CellsMore.depths_file_missing proto spec protodir w d df lf
               Hd Hdf Hlf HD).
    cbn. auto.
Qed.

(** X16: when there is no prototype yet and the spec has no key ['proto'],
    [get_cell] fails with [KeyError] after it has initialized the channels
    and before it loads anything. *)
Theorem get_cell_missing_proto (E : Cells.Externals) (name : string)
    (spec : gmap string string) (parent protodir : string)
    (w w1 w2 : Cells.World) :
  Cells.get_proto name parent w = (Cells.Ok None, w1) →
  Cells.init_channels w1 = (Cells.Ok tt, w2) →
  spec !! "proto"%string = None →
  Cells.get_cell name spec parent protodir w
  = (Cells.Raise (Cells.KeyError "proto"), w2).
Proof.
  intros Hproto Hinit Hkey. unfold Cells.get_cell.
  rewrite (CellsFacts.bind_Ok _ _ _ _ _ Hproto).
  rewrite (CellsFacts.bind_Ok _ _ _ _ _ Hinit).
  unfold Cells.getitem. rewrite Hkey.
  apply CellsMore.bind_Raise. reflexivity.
Qed.

Lemma get_cell_missing_proto_witness :
  @Cells.get_cell Cells.recording_externals "TCR" ∅ "/library" "proto"
    Cells.empty_world
  = (Cells.Raise (Cells.KeyError "proto"),
     Cells.mkWorld ∅ ∅ [Cells.EvInitChannels]).
Proof.
  refine (get_cell_missing_proto Cells.recording_externals "TCR" ∅
            "/library" "proto" Cells.empty_world Cells.empty_world _ _ _ _);
    reflexivity.
Defined.

(** X17: when [init_cells] returns, its dict has exactly the names of
    [cell_spec] as keys, and the value kept for the name at position [k] of
    [cell_spec] is what [get_proto] returned for that name in the world
    reached after [init_channels] and the first [k] items: the element
    found, or [None] when there was none and the cell had to be loaded. *)
Theorem init_cells_result (E : Cells.Externals) (w w' : Cells.World)
    (cells : gmap string (option Cells.Elem)) :
  Cells.init_cells w = (Cells.Ok cells, w') →
  dom cells = dom Cells.cell_spec ∧
  ∃ w1, Cells.init_channels w = (Cells.Ok tt, w1) ∧
    ∀ k name spec, Cells.cell_spec_items !! k = Some (name, spec) →
      ∃ ck wk r wp,
        Cells.init_cells_loop (take k Cells.cell_spec_items) ∅ w1
          = (Cells.Ok ck, wk) ∧
        Cells.get_proto name "/library" wk = (Cells.Ok r, wp) ∧
        cells !! name = Some r.
Proof.
  unfold Cells.init_cells. intros Hrun.
  apply CellsMore.bind_Ok_inv in Hrun as ([] & w1 & Hinit & Hloop).
  split.
  - rewrite (CellsMore.init_cells_loop_dom _ _ _ _ _ Hloop).
    rewrite dom_empty_L, union_empty_l_L.
    rewrite CellsMore.cell_spec_from_items. symmetry. apply dom_list_to_map_L.
  - exists w1. split; [exact Hinit |]. intros k name spec Hk.
    exact (CellsMore.init_cells_loop_turn _ _ _ _ _ k name spec Hloop
             CellsMore.cell_spec_names_distinct Hk).
Qed.

Lemma init_cells_result_witness :
  ∃ cells w',
    @Cells.init_cells Cells.recording_externals Cells.empty_world
      = (Cells.Ok cells, w') ∧
    dom cells = dom Cells.cell_spec ∧
    cells !! "SupPyrFRB"%string = Some None.
Proof.
  eexists _, _. split; [vm_compute; reflexivity |]. split.
  - refine (proj1 (init_cells_result Cells.recording_externals
                     Cells.empty_world _ _ _)).
    vm_compute. reflexivity.
  - vm_compute. reflexivity.
Defined.

(** ** The two ways of writing the NaF gates *)

(** X18: the floor conventions of the two NaF constructions agree.  With
    [alpha + beta > 0] and a factor [q > 0], flooring the unscaled time
    constant at [floor] and dividing by [q] (granule_cell_hhchannel.py) is
    the same as flooring the time constant of the scaled rates at
    [floor / q] (the expression of granule_cell_hhchannel2.py); the steady
    states agree as well. *)
Theorem floor_conventions_agree (floor q a b : R) :
  0 < q → 0 < a + b →
  NaF_tau_at floor q a b = HH2.NaF_tau_body (floor / q) (q * a) (q * b) ∧
  NaF_inf_at a b = HH2.NaF_inf_body (q * a) (q * b).
Proof.
  intros Hq Hab. assert (Hs : 0 < q * a + q * b) by nra. split.
  - rewrite NaF_tau_val by lra.
    unfold HH2.NaF_tau_body. rewrite decide_False by lra.
    rewrite fdiv_nonzero by lra. rewrite obind_Some. f_equal.
    rewrite <- Rmax_scale by exact Hq. f_equal. field. split; lra.
  - rewrite NaF_inf_val by exact Hab.
    unfold HH2.NaF_inf_body. rewrite fdiv_nonzero by lra. f_equal.
    field. split; lra.
Qed.

Lemma floor_conventions_agree_witness :
  NaF_tau_at 5e-5 5 1 1 = HH2.NaF_tau_body (5e-5 / 5) (5 * 1) (5 * 1).
Proof.
  refine (proj1 (floor_conventions_agree 5e-5 5 1 1 _ _)); lra.
Defined.

(** ** Temperature scaling of the other gates *)

Lemma scaled_rates_invariant (alpha1 beta1 alphaf betaf : ndarray)
    (mn mx : R) (d : nat) (u : bool) (f : R) (i : nat) (a b a' b' : R) :
  0 < f → 0 < a → 0 <= b → a' = f * a → b' = f * b →
  alpha1 !! i = Some (Some a) → beta1 !! i = Some (Some b) →
  alphaf !! i = Some (Some a') → betaf !! i = Some (Some b') →
  q10_invariant (mkHHGate alpha1 (np_add alpha1 beta1) mn mx d u)
                (mkHHGate alphaf (np_add alphaf betaf) mn mx d u) f i.
Proof.
  intros Hf Ha Hb -> -> Ha1 Hb1 Haf Hbf.
  pose proof (np_add_lookup _ _ i _ _ Ha1 Hb1) as HB1.
  pose proof (np_add_lookup _ _ i _ _ Haf Hbf) as HBf.
  assert (Hn1 : a + b ≠ 0) by lra.
  assert (Hnf : f * a + f * b ≠ 0) by nra.
  set (g1 := mkHHGate alpha1 (np_add alpha1 beta1) mn mx d u).
  set (gf := mkHHGate alphaf (np_add alphaf betaf) mn mx d u).
  exists (a / (a + b)), (1 / (a + b)).
  split; [exact (plot_inf_lookup g1 i _ _ Ha1 HB1 Hn1) |]. split.
  - rewrite (plot_inf_lookup gf i _ _ Haf HBf Hnf). do 2 f_equal.
    field. split; lra.
  - split; [exact (plot_tau_lookup g1 i _ HB1 Hn1) |].
    rewrite (plot_tau_lookup gf i _ HBf Hnf). do 2 f_equal.
    field. split; lra.
Qed.

Lemma CaHVA_m_scaled (f : R) (i : nat) :
  0 < f → (i <= vdivs)%nat →
  ∃ a b, 0 < a ∧ 0 < b ∧
         CaHVA_alpha_m 1 !! i = Some (Some a) ∧
         CaHVA_beta_m 1 !! i = Some (Some b) ∧
         CaHVA_alpha_m f !! i = Some (Some (f * a)) ∧
         CaHVA_beta_m f !! i = Some (Some (f * b)).
Proof.
  intros Hf Hi.
  destruct (CaHVA_m_at 1 i Hi) as (a & b & Ha & Hb & Hpos).
  destruct (Hpos ltac:(lra)) as [Hpa Hpb].
  exists a, b. split; [exact Hpa |]. split; [exact Hpb |].
  split; [exact Ha |]. split; [exact Hb |].
  unfold CaHVA_alpha_m, CaHVA_beta_m in *.
  rewrite !on_grid in * by exact Hi.
  rewrite CaHVA_alpha_m_val in *.
  rewrite CaHVA_beta_m_val in * by apply V_at_off_singularity.
  injection Ha as <-. injection Hb as <-.
  split; do 2 f_equal; ring.
Qed.

Lemma CaHVA_h_scaled (f : R) (i : nat) :
  0 < f → (i <= vdivs)%nat →
  ∃ a b, 0 < a ∧ 0 <= b ∧
         CaHVA_alpha_h 1 !! i = Some (Some a) ∧
         CaHVA_beta_h 1 !! i = Some (Some b) ∧
         CaHVA_alpha_h f !! i = Some (Some (f * a)) ∧
         CaHVA_beta_h f !! i = Some (Some (f * b)).
Proof.
  intros Hf Hi.
  destruct (CaHVA_h_values 1 (V_at i) ltac:(lra))
    as (a & b & Ha & Hb & Hpa & Hpb & _ & _).
  exists a, b. split; [exact Hpa |]. split; [exact Hpb |].
  unfold CaHVA_alpha_h, CaHVA_beta_h. rewrite !on_grid by exact Hi.
  rewrite Ha, Hb. split; [reflexivity |]. split; [reflexivity |].
  revert Ha Hb. unfold CaHVA_alpha_h_at, CaHVA_beta_h_at.
  case_decide; intros [= <-] [= <-]; split; do 2 f_equal; lra.
Qed.

Lemma NaF_gate_scaled (floor f : R) (alpha beta : ndarray) (i : nat)
    (a b : R) :
  0 < floor → 0 < f → 0 < a → 0 < b →
  alpha !! i = Some (Some a) → beta !! i = Some (Some b) →
  q10_invariant
    (mkHHGate (np_div (NaF_inf_arr alpha beta) (NaF_tau_arr floor 1 alpha beta))
              (np_rdiv 1 (NaF_tau_arr floor 1 alpha beta)) vmin vmax vdivs true)
    (mkHHGate (np_div (NaF_inf_arr alpha beta) (NaF_tau_arr floor f alpha beta))
              (np_rdiv 1 (NaF_tau_arr floor f alpha beta)) vmin vmax vdivs true)
    f i.
Proof.
  intros Hfl Hf Ha Hb Hal Hbe.
  destruct (NaF_tables_at floor 1 alpha beta i a b Hfl ltac:(lra) Ha Hb
              Hal Hbe) as (Ht1 & Htau1 & Hinf1 & _).
  destruct (NaF_tables_at floor f alpha beta i a b Hfl Hf Ha Hb Hal Hbe)
    as (Htf & Htauf & Hinff & _).
  destruct (tau_inf_gate_encoding _ _ vmin vmax vdivs true i _ _ Htau1 Hinf1
              ltac:(lra)) as (t1 & x1 & Et1 & Ex1 & _ & _ & _ & Hpt1 & Hpi1).
  destruct (tau_inf_gate_encoding _ _ vmin vmax vdivs true i _ _ Htauf Hinff
              ltac:(lra)) as (tf & xf & Etf & Exf & _ & _ & _ & Hptf & Hpif).
  rewrite Htau1 in Et1. rewrite Hinf1 in Ex1.
  rewrite Htauf in Etf. rewrite Hinff in Exf.
  injection Et1 as <-. injection Ex1 as <-.
  injection Etf as <-. injection Exf as <-.
  eexists _, _. split; [exact Hpi1 |]. split; [exact Hpif |].
  split; [exact Hpt1 |]. rewrite Hptf. do 2 f_equal.
  pose proof (Rmax_floor_pos (1 / (a + b)) floor Hfl). field. lra.
Qed.

(** X19: the CaHVA and the NaF gates are invariant under the temperature
    factor in the way the KDR gates are: at every grid index and for every
    [f > 0], the gate built with factor [f] has the steady state of the gate
    built with factor 1 and its time constant divided by [f]. *)
Theorem q10_invariance_CaHVA_NaF (f : R) (i : nat) :
  0 < f → (i <= vdivs)%nat →
  q10_invariant (gateX (make_channel_CaHVA_q 1))
                (gateX (make_channel_CaHVA_q f)) f i ∧
  q10_invariant (gateY (make_channel_CaHVA_q 1))
                (gateY (make_channel_CaHVA_q f)) f i ∧
  q10_invariant (gateX (make_channel_NaF_q 1))
                (gateX (make_channel_NaF_q f)) f i ∧
  q10_invariant (gateY (make_channel_NaF_q 1))
                (gateY (make_channel_NaF_q f)) f i.
Proof.
  intros Hf Hi. split; [| split; [| split]].
  - destruct (CaHVA_m_scaled f i Hf Hi) as (a & b & Ha & Hb & H1 & H2 & H3 & H4).
    exact (scaled_rates_invariant _ _ _ _ vmin vmax vdivs true f i a b _ _
             Hf Ha ltac:(lra) eq_refl eq_refl H1 H2 H3 H4).
  - destruct (CaHVA_h_scaled f i Hf Hi) as (a & b & Ha & Hb & H1 & H2 & H3 & H4).
    exact (scaled_rates_invariant _ _ _ _ vmin vmax vdivs true f i a b _ _
             Hf Ha Hb eq_refl eq_refl H1 H2 H3 H4).
  - destruct (NaF_m_at i Hi) as (a & b & Ha & Hb & _ & _ & Hal & Hbe).
    exact (NaF_gate_scaled 5e-5 f _ _ i a b ltac:(lra) Hf Ha Hb Hal Hbe).
  - destruct (NaF_h_at i Hi) as (a & b & Ha & Hb & Hal & Hbe).
    exact (NaF_gate_scaled 2.25e-4 f _ _ i a b ltac:(lra) Hf Ha Hb Hal Hbe).
Qed.

Lemma q10_invariance_CaHVA_NaF_witness :
  q10_invariant (gateX (make_channel_NaF_q 1))
                (gateX (make_channel_NaF_q 3)) 3 10.
Proof.
  refine (proj1 (proj2 (proj2 (q10_invariance_CaHVA_NaF 3 10 _ _)))).
  - lra.
  - unfold vdivs. lia.
Defined.

(** ** Shapes of the export *)

Lemma np_sub_length (x y : ndarray) (n : nat) :
  length x = n → length y = n → length (np_sub x y) = n.
Proof. intros Hx Hy. unfold np_sub. rewrite length_zip_with. lia. Qed.

Lemma export_lengths (g : HHGate) :
  finite_gate g →
  length (plot_v g) = (divs g + 1)%nat ∧
  length (plot_alpha g) = length (plot_v g) ∧
  length (plot_beta g) = length (plot_v g) ∧
  length (plot_tau g) = length (plot_v g) ∧
  length (plot_inf g) = length (plot_v g).
Proof.
  intros [[HA _] [HB _]].
  assert (Hv : length (plot_v g) = (divs g + 1)%nat) by apply linspace_length.
  rewrite Hv. split; [reflexivity |]. split; [exact HA |]. split; [| split].
  - apply np_sub_length; assumption.
  - unfold plot_tau. rewrite np_rdiv_length. exact HB.
  - apply np_div_length; assumption.
Qed.

(** X20: for each of the six gates built from tables, the voltage column of
    the export is the construction grid [v] (not the shifted grid [V] at
    which the rates were computed), and the four exported columns have as
    many rows as [v], so that [np.c_[v, column]] is well formed. *)
Theorem export_shapes :
  Forall (λ g, plot_v g = v ∧
               length (plot_v g) = (vdivs + 1)%nat ∧
               length (plot_alpha g) = length (plot_v g) ∧
               length (plot_beta g) = length (plot_v g) ∧
               length (plot_tau g) = length (plot_v g) ∧
               length (plot_inf g) = length (plot_v g))
    [gateX make_channel_CaHVA; gateY make_channel_CaHVA;
     gateX make_channel_KDR; gateY make_channel_KDR;
     gateX make_channel_NaF; gateY make_channel_NaF].
Proof.
  destruct (CaHVA_gates_finite q10_mul) as [Hcx Hcy].
  destruct (KDR_gates_finite q10_mul) as [Hkx Hky].
  destruct (NaF_gates_finite q10_mul q10_mul_pos) as [Hnx Hny].
  repeat apply Forall_cons_2; [| | | | | | apply Forall_nil_2];
    (split; [reflexivity |]); apply export_lengths; assumption.
Qed.
